(** * sort-imports-by-length: a shallow embedding of the ESLint rule

    The rule lives in [lib/rules/sort-imports-by-length.js].  Its [Program]
    visitor collects the [ImportDeclaration] nodes of a file, buckets them
    into five groups by the shape of the import path, sorts every bucket by
    the length of the statement's source text, compares the result with the
    original order by object identity and, on the first difference, reports
    one diagnostic whose fix replaces the whole import block.

    Modelling decisions:
    - AST nodes are heap objects.  Arrays hold references ([loc]); the heap
      [loc -> Node] gives the fields the rule reads.  [!==] on nodes is
      inequality of references.
    - JavaScript strings are [string]; a character is one code unit in the
      range 0..255.  The regular expressions only inspect the first two or
      three code units, so the predicates do not depend on the encoding of
      the rest.
    - [undefined] is [None]: an out-of-range array read, and the result of
      [getGroupType] when no branch returns.
    - [sourceCode.getText] is supplied by the host; it is a parameter.
    - [Array.prototype.sort] is stable (ECMAScript 2019 and later); with the
      comparator of the rule its result is the stable sort by text length,
      here computed by insertion. *)

From stdpp Require Import base list strings sorting.
From Stdlib Require Import ZArith Ascii.

Local Open Scope Z_scope.
Local Open Scope nat_scope.

(** ** Data model *)

Definition loc := nat.

(** The fields of an ESTree node that the rule reads: [node.type],
    [node.source.value], [node.importKind] and [node.range]. *)
Record Node := {
  type : string;
  source_value : string;
  importKind : option string;
  range : nat * nat
}.

(** What [fixer.replaceTextRange(range, text)] returns. *)
Record Fix := {
  fix_range : nat * nat;
  fix_text : string
}.

(** The argument of [context.report].  The [fix] callback is run by the host
    on demand; the model records its result, [None] standing for a callback
    that would throw on a missing node. *)
Record Report := {
  report_node : option loc;
  report_message : string;
  report_fix : option Fix
}.

(** The line break ['\n']. *)
Definition LF : string := String "010" EmptyString.

(** ** The four regular expressions

    Every pattern of the rule is anchored at the start and is a sequence of
    single-character items, one of them optional. *)

Inductive atom :=
| Chr (c : ascii)                (* a literal character, e.g. [\.] *)
| NotOneOf (cs : list ascii).    (* a negated class, e.g. [[^./]] *)

Inductive item :=
| One (a : atom)
| Optional (a : atom).           (* [a?], greedy with backtracking *)

Definition atom_matches (a : atom) (c : ascii) : bool :=
  match a with
  | Chr c' => bool_decide (c = c')
  | NotOneOf cs => bool_decide (c ∉ cs)
  end.

(** [RegExp.prototype.test] for a pattern [^ i1 i2 ...]. *)
Fixpoint regexp_test (re : list item) (s : string) : bool :=
  match re with
  | [] => true
  | One a :: re' =>
      match s with
      | String c s' => atom_matches a c && regexp_test re' s'
      | EmptyString => false
      end
  | Optional a :: re' =>
      match s with
      | String c s' =>
          (atom_matches a c && regexp_test re' s') || regexp_test re' s
      | EmptyString => regexp_test re' s
      end
  end.

(** [/^[^./@]/] *)
Definition isThirdParty (importPath : string) : bool :=
  regexp_test [One (NotOneOf ["."; "/"; "@"]%char)] importPath.

(** [/^@/] *)
Definition isAtImport (importPath : string) : bool :=
  regexp_test [One (Chr "@")] importPath.

(** [/^\.[^./]/] *)
Definition isSingleDotRelative (importPath : string) : bool :=
  regexp_test [One (Chr "."); One (NotOneOf ["."; "/"]%char)] importPath.

(** [/^\.\.?\//] *)
Definition isMultiDotRelative (importPath : string) : bool :=
  regexp_test [One (Chr "."); Optional (Chr "."); One (Chr "/")] importPath.

(** ** [Array.prototype.sort]

    [cmp a b] is the number returned by the comparator.  An element is
    inserted in front of the first element it does not compare greater
    than, so elements that compare equal keep their order. *)

Section ArraySort.
Context {A : Type} (cmp : A → A → Z).

Fixpoint sort_insert (x : A) (l : list A) : list A :=
  match l with
  | [] => [x]
  | y :: l' => if (cmp x y <=? 0)%Z then x :: y :: l' else y :: sort_insert x l'
  end.

Fixpoint Array_sort (l : list A) : list A :=
  match l with
  | [] => []
  | x :: l' => sort_insert x (Array_sort l')
  end.
End ArraySort.

(** ** [String.prototype.trim]

    White space and line terminators among the code units 0..255:
    TAB, LF, VT, FF, CR, SP and NBSP. *)

Definition is_white_space (c : ascii) : bool :=
  bool_decide (c ∈ ["009"; "010"; "011"; "012"; "013"; " "; "160"]%char).

Fixpoint trimStart (s : string) : string :=
  match s with
  | String c s' => if is_white_space c then trimStart s' else s
  | EmptyString => EmptyString
  end.

Fixpoint trimEnd (s : string) : string :=
  match s with
  | EmptyString => EmptyString
  | String c s' =>
      match trimEnd s' with
      | EmptyString =>
          if is_white_space c then EmptyString else String c EmptyString
      | t => String c t
      end
  end.

Definition trim (s : string) : string := trimEnd (trimStart s).

(** ** The rule *)

Section Rule.
Variable heap : loc → Node.
Variable getText : Node → string.

Definition isTypeImport (node : loc) : bool :=
  bool_decide (importKind (heap node) = Some "type").

(** [getGroupType]: the group index, or [undefined] when control falls off
    the end of the [if] chain. *)
Definition getGroupType (node : loc) : option nat :=
  let importPath := source_value (heap node) in
  if isThirdParty importPath then Some 0
  else if isAtImport importPath then Some 1
  else if isSingleDotRelative importPath then Some 2
  else if isMultiDotRelative importPath then Some 3
  else if isTypeImport node then Some 4
  else None.

(** [groups[k].push(node)] *)
Definition push_to (k : nat) (node : loc) (groups : list (list loc)) :
    list (list loc) :=
  alter (λ group, group ++ [node]) k groups.

(** The callback of [importNodes.forEach] in [groupImports]. *)
Definition groupImports_step (groups : list (list loc)) (node : loc) :
    list (list loc) :=
  let importPath := source_value (heap node) in
  if isThirdParty importPath then push_to 0 node groups
  else if isAtImport importPath then push_to 1 node groups
  else if isSingleDotRelative importPath then push_to 2 node groups
  else if isMultiDotRelative importPath then push_to 3 node groups
  else if isTypeImport node then push_to 4 node groups
  else groups.

(** The local [groups] of [groupImports] when the [forEach] is over. *)
Definition groupImports_groups (importNodes : list loc) : list (list loc) :=
  foldl groupImports_step [[]; []; []; []; []] importNodes.

Definition groupImports (importNodes : list loc) : list (list loc) :=
  filter (λ group, 0 < length group) (groupImports_groups importNodes).

(** The comparator of the rule: [aLength - bLength]. *)
Definition byLength (a b : loc) : Z :=
  (Z.of_nat (String.length (getText (heap a)))
   - Z.of_nat (String.length (getText (heap b))))%Z.

(** The [groupedImports.forEach] of [Program]: the value of
    [sortedImports] once every group was sorted and appended. *)
Definition sortedImports (importNodes : list loc) : list loc :=
  foldl (λ sorted group, sorted ++ Array_sort byLength group) []
        (groupImports importNodes).

(** State of the [forEach] in [generateFixedCode]: [code] and
    [currentGroupType] ([None] is [null]). *)
Definition generateFixedCode_step
    (st : string * option (option nat)) (node : loc) (index : nat) :
    string * option (option nat) :=
  let '(code, currentGroupType) := st in
  let groupType := getGroupType node in
  let code :=
    if bool_decide (currentGroupType ≠ Some groupType) && negb (index =? 0)
    then code +:+ LF
    else code in
  (code +:+ getText (heap node) +:+ LF, Some groupType).

(** [forEach((node, index) => ...)] from position [index] on. *)
Fixpoint forEach_indexed {S : Type} (f : S → loc → nat → S)
    (l : list loc) (index : nat) (st : S) : S :=
  match l with
  | [] => st
  | node :: l' => forEach_indexed f l' (index + 1) (f st node index)
  end.

(** The text before the final [trim]. *)
Definition generateFixedCode_code (sortedImports : list loc) : string :=
  fst (forEach_indexed generateFixedCode_step sortedImports 0
         (EmptyString, None)).

Definition generateFixedCode (sortedImports : list loc) : string :=
  trim (generateFixedCode_code sortedImports).

(** The [fix] callback of the report. *)
Definition make_fix (importNodes sortedImports : list loc) : option Fix :=
  let fixedCode := generateFixedCode sortedImports in
  match importNodes !! 0, importNodes !! (length importNodes - 1) with
  | Some firstImport, Some lastImport =>
      Some {| fix_range := (fst (range (heap firstImport)),
                            snd (range (heap lastImport)));
              fix_text := fixedCode |}
  | _, _ => None
  end.

(** The comparison loop, over the indices still to visit.  A mismatch
    reports and breaks. *)
Fixpoint compare_loop (importNodes sortedImports : list loc)
    (indices : list nat) : list Report :=
  match indices with
  | [] => []
  | i :: rest =>
      if bool_decide (importNodes !! i ≠ sortedImports !! i)
      then [ {| report_node := importNodes !! i;
                report_message := "Imports are not sorted correctly.";
                report_fix := make_fix importNodes sortedImports |} ]
      else compare_loop importNodes sortedImports rest
  end.

(** The body of the visitor once [importNodes] is known: the reports it
    sends to [context.report]. *)
Definition check_imports (importNodes : list loc) : list Report :=
  if length importNodes =? 0 then []
  else
    let sorted := sortedImports importNodes in
    compare_loop importNodes sorted (seq 0 (length importNodes)).

(** [Program(node)], given [node.body]. *)
Definition Program (body : list loc) : list Report :=
  let importNodes :=
    filter (λ n, type (heap n) = "ImportDeclaration") body in
  check_imports importNodes.
End Rule.

(** ** The host side, for concrete files

    How the host serves the rule for a file given as text:
    [sourceCode.getText(node)] is the slice of the file at [node.range], and
    an accepted fix is spliced into the file. *)

Definition slice_text (text : string) (n : Node) : string :=
  String.substring (fst (range n)) (snd (range n) - fst (range n)) text.

(** Modelled from the spec: the host's application of a range replacement
    (the fixer belongs to the host, not to the rule): the text before the
    range, the replacement, the text after the range. *)
Definition replaceTextRange (text : string) (f : Fix) : string :=
  String.substring 0 (fst (fix_range f)) text
  +:+ fix_text f
  +:+ String.substring (snd (fix_range f))
        (String.length text - snd (fix_range f)) text.

(** An import statement as written: its text, its path, its [importKind]. *)
Definition stmt : Type := string * string * option string.

(** The import nodes of a file that consists of the statements [stmts], one
    per line, the first starting at offset [start]. *)
Fixpoint place (start : nat) (stmts : list stmt) : list Node :=
  match stmts with
  | [] => []
  | (txt, path, kind) :: rest =>
      {| type := "ImportDeclaration"; source_value := path;
         importKind := kind;
         range := (start, start + String.length txt) |}
      :: place (start + String.length txt + 1) rest
  end.

Definition file_text (stmts : list stmt) : string :=
  foldr (λ '(txt, _, _) acc, txt +:+ LF +:+ acc) EmptyString stmts.

Definition other_statement : Node :=
  {| type := "ExpressionStatement"; source_value := EmptyString;
     importKind := None; range := (0, 0) |}.

(** A heap with the nodes [ns] at the references [0, 1, ...]. *)
Definition heap_of (ns : list Node) : loc → Node :=
  λ i, nth i ns other_statement.

(** The heap and the text accessor of the file made of [stmts]. *)
Definition heap_for (stmts : list stmt) : loc → Node :=
  heap_of (place 0 stmts).

Definition getText_for (stmts : list stmt) : Node → string :=
  slice_text (file_text stmts).

(** Three imports in the order third-party, relative, scoped. *)
Definition file_mixed : list stmt :=
  [ ("import z from 'longmodulename'", "longmodulename", None);
    ("import a from './x'", "./x", None);
    ("import {B} from '@scope/pkg'", "@scope/pkg", None) ].

(** A single import of the directory index. *)
Definition file_index : list stmt :=
  [ ("import a from '.'", ".", None) ].

(** A side-effect import with an empty path. *)
Definition file_empty_path : list stmt :=
  [ ("import ''", EmptyString, None) ].

(** An import of the directory index between two package imports. *)
Definition file_with_index : list stmt :=
  [ ("import bb from 'bb'", "bb", None);
    ("import a from '.'", ".", None);
    ("import c from 'c'", "c", None) ].

(** A single import of an absolute path. *)
Definition file_absolute : list stmt :=
  [ ("import a from '/abs'", "/abs", None) ].

(** Two third-party imports of equal length, then a shorter one, then a
    dot-file import. *)
Definition file_ties : list stmt :=
  [ ("import b from 'bb'", "bb", None);
    ("import a from 'aa'", "aa", None);
    ("import c from 'c'", "c", None);
    ("import d from '.d'", ".d", None) ].

(** An import list already in canonical order. *)
Definition file_sorted : list stmt :=
  [ ("import c from 'c'", "c", None);
    ("import a from './x'", "./x", None) ].

(** ** Vocabulary of the properties *)

Section Vocabulary.
Variable heap : loc → Node.
Variable getText : Node → string.

(** The lines of the replacement text for the statements [l] in emission
    order: the text of every statement, and one empty line in front of a
    statement whose group type differs from that of its predecessor. *)
Fixpoint fixed_lines (l : list loc) : list string :=
  match l with
  | [] => []
  | a :: l' =>
      getText (heap a) ::
      match l' with
      | [] => []
      | b :: _ =>
          (if decide (getGroupType heap a = getGroupType heap b)
           then [] else [EmptyString]) ++ fixed_lines l'
      end
  end.

(** The statements of [l] with group type [k], in the order of [l]. *)
Definition bucket (k : nat) (l : list loc) : list loc :=
  filter (λ n, getGroupType heap n = Some k) l.

(** The statement passes one of the five tests of [groupImports]. *)
Definition classified (n : loc) : Prop :=
  isThirdParty (source_value (heap n)) = true ∨
  isAtImport (source_value (heap n)) = true ∨
  isSingleDotRelative (source_value (heap n)) = true ∨
  isMultiDotRelative (source_value (heap n)) = true ∨
  isTypeImport heap n = true.

(** The import declarations of a program body. *)
Definition importNodes_of (body : list loc) : list loc :=
  filter (λ n, type (heap n) = "ImportDeclaration") body.

(** The report of a mismatch at index [i]. *)
Definition mismatch_report (importNodes : list loc) (i : nat) : Report :=
  {| report_node := importNodes !! i;
     report_message := "Imports are not sorted correctly.";
     report_fix :=
       make_fix heap getText importNodes
         (sortedImports heap getText importNodes) |}.

(** [sourceCode.getText(node).length] *)
Definition textLength (n : loc) : nat := String.length (getText (heap n)).

(** Text lengths never decrease along the list. *)
Definition ascending (l : list loc) : Prop :=
  StronglySorted (λ a b, textLength a ≤ textLength b) l.

(** Every line followed by a line break. *)
Definition unlines (ls : list string) : string :=
  foldr (λ line acc, line +:+ LF +:+ acc) EmptyString ls.

(** The order of the canonical list: a lower group index first, and within
    a group a text that is not longer first. *)
Definition canonical_le (a b : loc) : Prop :=
  ∃ j k, getGroupType heap a = Some j ∧ getGroupType heap b = Some k ∧
         (j < k ∨ (j = k ∧ textLength a ≤ textLength b)).

(** What the canonical order looks at: the group type and the text
    length. *)
Definition sort_key (n : loc) : option nat * nat :=
  (getGroupType heap n, textLength n).

(** The position of a statement in the file is in front of the position of
    another. *)
Definition range_before (a b : loc) : Prop :=
  snd (range (heap a)) ≤ fst (range (heap b)).
End Vocabulary.

(** Blocks of lines with one empty line between two consecutive blocks. *)
Fixpoint separated (blocks : list (list string)) : list string :=
  match blocks with
  | [] => []
  | [block] => block
  | block :: blocks' => block ++ [EmptyString] ++ separated blocks'
  end.

(** A file with a call between two imports. *)
Definition text_interleaved : string :=
  "import bb from 'bb'" +:+ LF +:+ "setup()" +:+ LF +:+
  "import c from 'c'" +:+ LF.

Definition heap_interleaved : loc → Node :=
  heap_of
    [ {| type := "ImportDeclaration"; source_value := "bb";
         importKind := None; range := (0, 19) |};
      {| type := "ExpressionStatement"; source_value := EmptyString;
         importKind := None; range := (20, 27) |};
      {| type := "ImportDeclaration"; source_value := "c";
         importKind := None; range := (28, 45) |} ].

(** A type-only import of a package behind a value import of a relative
    path. *)
Definition file_type_only : list stmt :=
  [ ("import a from '../a'", "../a", None);
    ("import type { T } from 'react'", "react", Some "type") ].

(** Two imports that pass none of the tests. *)
Definition file_unclassified : list stmt :=
  [ ("import a from '.'", ".", None);
    ("import b from '..'", "..", None) ].

(** The lines separated by line breaks, none after the last. *)
Fixpoint join_lines (ls : list string) : string :=
  match ls with
  | [] => EmptyString
  | [line] => line
  | line :: ls' => line +:+ LF +:+ join_lines ls'
  end.

(** [a] occurs in [l] at an earlier position than [b]. *)
Definition precedes {A : Type} (a b : A) (l : list A) : Prop :=
  ∃ i j, i < j ∧ l !! i = Some a ∧ l !! j = Some b.

(** The strings made of white space only. *)
Fixpoint all_white_space (s : string) : bool :=
  match s with
  | EmptyString => true
  | String c s' => is_white_space c && all_white_space s'
  end.

(** The last character of a string, if any. *)
Fixpoint last_char (s : string) : option ascii :=
  match s with
  | EmptyString => None
  | String c EmptyString => Some c
  | String _ s' => last_char s'
  end.

Definition first_char (s : string) : option ascii :=
  match s with
  | EmptyString => None
  | String c _ => Some c
  end.

(** There is a character, and it is not white space. *)
Definition solid (o : option ascii) : Prop :=
  ∃ c, o = Some c ∧ is_white_space c = false.

(** If there is a character, it is not white space. *)
Definition not_blank (o : option ascii) : Prop :=
  ∀ c, o = Some c → is_white_space c = false.

(** * Properties *)

(** ** The path predicates in plain terms *)

Lemma isThirdParty_spec (p : string) :
  isThirdParty p = true ↔
  ∃ c rest, p = String c rest ∧ c ∉ ["."; "/"; "@"]%char.
Proof.
  unfold isThirdParty; simpl. destruct p as [|c rest]; simpl.
  - split; [discriminate | intros (? & ? & ? & _); discriminate].
  - rewrite andb_true_r, bool_decide_eq_true. split.
    + intros H. by exists c, rest.
    + intros (c' & rest' & Heq & H). by injection Heq as -> ->.
Qed.

Lemma isAtImport_spec (p : string) :
  isAtImport p = true ↔ ∃ rest, p = String "@" rest.
Proof.
  unfold isAtImport; simpl. destruct p as [|c rest]; simpl.
  - split; [discriminate | intros (? & ?); discriminate].
  - rewrite andb_true_r, bool_decide_eq_true. split.
    + intros ->. by exists rest.
    + intros (rest' & Heq). by injection Heq as -> ->.
Qed.

Lemma isSingleDotRelative_spec (p : string) :
  isSingleDotRelative p = true ↔
  ∃ c rest, p = String "." (String c rest) ∧ c ∉ ["."; "/"]%char.
Proof.
  unfold isSingleDotRelative; simpl. destruct p as [|d [|c rest]]; simpl.
  - split; [discriminate | intros (? & ? & ? & _); discriminate].
  - rewrite andb_false_r.
    split; [discriminate | intros (? & ? & ? & _); discriminate].
  - rewrite andb_true_r, andb_true_iff, !bool_decide_eq_true. split.
    + intros [-> H]. by exists c, rest.
    + intros (c' & rest' & Heq & H). by injection Heq as -> -> ->.
Qed.

Lemma isMultiDotRelative_spec (p : string) :
  isMultiDotRelative p = true ↔
  (∃ rest, p = String "." (String "/" rest)) ∨
  (∃ rest, p = String "." (String "." (String "/" rest))).
Proof.
  unfold isMultiDotRelative; simpl. destruct p as [|d [|c rest]]; simpl.
  - split; [discriminate | intros [(? & ?)|(? & ?)]; discriminate].
  - rewrite andb_false_r.
    split; [discriminate | intros [(? & ?)|(? & ?)]; discriminate].
  - split.
    + intros H. apply andb_true_iff in H as [Hd H].
      apply bool_decide_eq_true in Hd as ->.
      apply orb_true_iff in H as [H|H].
      * apply andb_true_iff in H as [Hc H].
        apply bool_decide_eq_true in Hc as ->.
        destruct rest as [|e rest]; [discriminate|].
        apply andb_true_iff in H as [He _].
        apply bool_decide_eq_true in He as ->. right. by eexists.
      * apply andb_true_iff in H as [Hc _].
        apply bool_decide_eq_true in Hc as ->. left. by eexists.
    + intros [(rest' & Heq) | (rest' & Heq)]; injection Heq as -> -> ->;
        reflexivity.
Qed.

(** A path that starts with ['./'] fails the single-dot test and passes the
    multi-dot test. *)
Lemma dot_slash_predicates (rest : string) :
  let p := String "." (String "/" rest) in
  isThirdParty p = false ∧ isAtImport p = false ∧
  isSingleDotRelative p = false ∧ isMultiDotRelative p = true.
Proof. by repeat split. Qed.

(** ** The buckets of [groupImports] *)

Section Buckets.
Variable heap : loc → Node.

(** The statement is pushed to the bucket that [getGroupType] names, and
    to none when [getGroupType] is [undefined]. *)
Lemma groupImports_step_getGroupType (groups : list (list loc)) (node : loc) :
  groupImports_step heap groups node =
  match getGroupType heap node with
  | Some k => push_to k node groups
  | None => groups
  end.
Proof.
  unfold groupImports_step, getGroupType.
  repeat (match goal with |- context [if ?b then _ else _] =>
                            destruct b; [reflexivity|] end).
  reflexivity.
Qed.

Lemma getGroupType_lt_5 (node : loc) (k : nat) :
  getGroupType heap node = Some k → k < 5.
Proof.
  unfold getGroupType.
  repeat (match goal with |- context [if ?b then _ else _] =>
                            destruct b; [intros [= <-]; lia|] end).
  discriminate.
Qed.

Lemma groupImports_fold (g0 g1 g2 g3 g4 l : list loc) :
  foldl (groupImports_step heap) [g0; g1; g2; g3; g4] l =
  [g0 ++ bucket heap 0 l; g1 ++ bucket heap 1 l; g2 ++ bucket heap 2 l;
   g3 ++ bucket heap 3 l; g4 ++ bucket heap 4 l].
Proof.
  revert g0 g1 g2 g3 g4.
  induction l as [|n l IH]; intros g0 g1 g2 g3 g4; simpl.
  - unfold bucket; simpl. by rewrite !app_nil_r.
  - rewrite groupImports_step_getGroupType. unfold bucket.
    destruct (getGroupType heap n) as [k|] eqn:Hk.
    + pose proof (getGroupType_lt_5 _ _ Hk) as Hlt.
      destruct k as [|[|[|[|[|k]]]]]; try lia;
        unfold push_to; simpl; rewrite IH; unfold bucket;
        rewrite !filter_cons, Hk; simpl;
        repeat (case_decide; try congruence);
        by rewrite <- ?app_assoc.
    + rewrite IH. unfold bucket. rewrite !filter_cons, Hk.
      by repeat (case_decide; try congruence).
Qed.

Lemma groupImports_groups_buckets (l : list loc) :
  groupImports_groups heap l =
  [bucket heap 0 l; bucket heap 1 l; bucket heap 2 l; bucket heap 3 l;
   bucket heap 4 l].
Proof. unfold groupImports_groups. by rewrite groupImports_fold. Qed.

Lemma bucket_app (k : nat) (l1 l2 : list loc) :
  bucket heap k (l1 ++ l2) = bucket heap k l1 ++ bucket heap k l2.
Proof. apply filter_app. Qed.

Lemma elem_of_bucket (k : nat) (l : list loc) (n : loc) :
  n ∈ bucket heap k l ↔ getGroupType heap n = Some k ∧ n ∈ l.
Proof. unfold bucket. by rewrite list_elem_of_filter. Qed.
End Buckets.

(** ** [Array.prototype.sort] with the comparator of the rule *)

Section Sorting.
Variable heap : loc → Node.
Variable getText : Node → string.

Local Abbreviation len := (textLength heap getText).
Local Abbreviation sort := (Array_sort (byLength heap getText)).
Local Abbreviation ins := (sort_insert (byLength heap getText)).

Lemma byLength_nonpos (a b : loc) :
  (byLength heap getText a b <=? 0)%Z = true ↔ len a ≤ len b.
Proof. unfold byLength, textLength. rewrite Z.leb_le. lia. Qed.

Lemma sort_insert_perm (x : loc) (l : list loc) : ins x l ≡ₚ x :: l.
Proof.
  induction l as [|y l IH]; simpl; [done|].
  destruct (_ <=? _)%Z; [done|]. rewrite IH. apply Permutation_swap.
Qed.

Lemma Array_sort_perm (l : list loc) : sort l ≡ₚ l.
Proof.
  induction l as [|x l IH]; simpl; [done|].
  by rewrite sort_insert_perm, IH.
Qed.

Lemma elem_of_Array_sort (x : loc) (l : list loc) : x ∈ sort l ↔ x ∈ l.
Proof. by rewrite Array_sort_perm. Qed.

Lemma Array_sort_length (l : list loc) : length (sort l) = length l.
Proof. by rewrite Array_sort_perm. Qed.

(** Insertion into an ascending list gives an ascending list. *)
Lemma sort_insert_ascending (x : loc) (l : list loc) :
  ascending heap getText l → ascending heap getText (ins x l).
Proof.
  unfold ascending. induction 1 as [|y l Hl IH Hy]; simpl.
  - repeat constructor.
  - destruct (_ <=? _)%Z eqn:Hc.
    + apply byLength_nonpos in Hc. constructor; [by constructor|].
      constructor; [done|].
      eapply Forall_impl; [exact Hy|]. simpl; intros; lia.
    + assert (len y ≤ len x) as Hyx.
      { destruct (decide (len x ≤ len y)) as [Hle|]; [|lia].
        apply byLength_nonpos in Hle. congruence. }
      constructor; [done|].
      rewrite sort_insert_perm. by constructor.
Qed.

Lemma Array_sort_ascending (l : list loc) : ascending heap getText (sort l).
Proof.
  induction l as [|x l IH]; simpl; [constructor|].
  by apply sort_insert_ascending.
Qed.

(** Sorting an ascending list changes nothing. *)
Lemma Array_sort_fixed (l : list loc) : ascending heap getText l → sort l = l.
Proof.
  unfold ascending. induction 1 as [|x l Hl IH Hx]; simpl; [done|].
  rewrite IH. destruct l as [|y l]; simpl; [done|].
  apply Forall_cons in Hx as [Hxy _].
  apply byLength_nonpos in Hxy. by rewrite Hxy.
Qed.

Lemma Array_sort_idemp (l : list loc) : sort (sort l) = sort l.
Proof. apply Array_sort_fixed, Array_sort_ascending. Qed.

(** Stability: the statements of any one length keep their order. *)
Lemma sort_insert_stable (m : nat) (x : loc) (l : list loc) :
  filter (λ n, len n = m) (ins x l) = filter (λ n, len n = m) (x :: l).
Proof.
  induction l as [|y l IH]; simpl; [done|].
  destruct (_ <=? _)%Z eqn:Hc; [done|].
  assert (¬ len x ≤ len y) as Hyx.
  { intros Hle. apply byLength_nonpos in Hle. congruence. }
  rewrite filter_cons, IH, !filter_cons.
  repeat case_decide; try done; lia.
Qed.

Lemma Array_sort_stable (m : nat) (l : list loc) :
  filter (λ n, len n = m) (sort l) = filter (λ n, len n = m) l.
Proof.
  induction l as [|x l IH]; simpl; [done|].
  by rewrite sort_insert_stable, !filter_cons, IH.
Qed.

(** An ascending list is determined by its selections by text length, so
    every stable sort by text length returns the list that [Array_sort]
    returns. *)
Lemma ascending_unique (l1 l2 : list loc) :
  ascending heap getText l1 → ascending heap getText l2 →
  (∀ m, filter (λ n, len n = m) l1 = filter (λ n, len n = m) l2) →
  l1 = l2.
Proof.
  unfold ascending. intros H1. revert l2.
  induction H1 as [|x l1 Hl1 IH Hx]; intros l2 H2 Heq.
  - destruct l2 as [|y l2]; [done|].
    specialize (Heq (len y)). by rewrite filter_cons_True in Heq.
  - destruct H2 as [|y l2 Hl2 Hy].
    { specialize (Heq (len x)). by rewrite filter_cons_True in Heq. }
    assert (x = y) as <-.
    { destruct (decide (len y = len x)) as [Hxy|Hxy].
      - specialize (Heq (len x)).
        rewrite !filter_cons_True in Heq by done. congruence.
      - assert (x ∈ y :: l2) as Hin.
        { apply (list_elem_of_filter (λ n, len n = len x)).
          rewrite <- Heq, filter_cons_True by done. left. }
        assert (y ∈ x :: l1) as Hin'.
        { apply (list_elem_of_filter (λ n, len n = len y)).
          rewrite Heq, filter_cons_True by done. left. }
        apply elem_of_cons in Hin as [->|Hin]; [done|].
        apply elem_of_cons in Hin' as [->|Hin']; [done|].
        rewrite Forall_forall in Hx, Hy.
        specialize (Hx _ Hin'). specialize (Hy _ Hin). simpl in *. lia. }
    f_equal. apply IH; [done|]. intros m. specialize (Heq m).
    rewrite !filter_cons in Heq. case_decide; congruence.
Qed.

Lemma Array_sort_unique (l l' : list loc) :
  ascending heap getText l' →
  (∀ m, filter (λ n, len n = m) l' = filter (λ n, len n = m) l) →
  l' = sort l.
Proof.
  intros Hasc Hstable. apply ascending_unique; [done | |].
  - apply Array_sort_ascending.
  - intros m. by rewrite Array_sort_stable.
Qed.

Lemma Array_sort_Forall (P : loc → Prop) (l : list loc) :
  Forall P l → Forall P (sort l).
Proof. by rewrite Array_sort_perm. Qed.
End Sorting.

(** ** [sortedImports]: the canonical order *)

Section Canonical.
Variable heap : loc → Node.
Variable getText : Node → string.

Local Abbreviation sort := (Array_sort (byLength heap getText)).
Local Abbreviation canonical := (sortedImports heap getText).

Lemma foldl_append_sorted (acc : list loc) (groups : list (list loc)) :
  foldl (λ sorted group, sorted ++ sort group) acc groups =
  acc ++ concat (map sort groups).
Proof.
  revert acc. induction groups as [|g groups IH]; intros acc; simpl.
  - by rewrite app_nil_r.
  - by rewrite IH, app_assoc.
Qed.

(** Dropping the empty groups does not change the concatenation. *)
Lemma concat_sort_nonempty (groups : list (list loc)) :
  concat (map sort (filter (λ group, 0 < length group) groups)) =
  concat (map sort groups).
Proof.
  induction groups as [|g groups IH]; simpl; [done|].
  rewrite filter_cons. case_decide as Hg; simpl; [by rewrite IH|].
  destruct g; simpl in *; [done | lia].
Qed.

(** The canonical order is the five sorted buckets, in priority order. *)
Lemma sortedImports_buckets (l : list loc) :
  canonical l =
  sort (bucket heap 0 l) ++ sort (bucket heap 1 l) ++
  sort (bucket heap 2 l) ++ sort (bucket heap 3 l) ++
  sort (bucket heap 4 l).
Proof.
  unfold sortedImports, groupImports.
  rewrite foldl_append_sorted, concat_sort_nonempty,
    groupImports_groups_buckets.
  simpl. by rewrite app_nil_r.
Qed.

(** A sorted bucket holds statements of its own group only. *)
Lemma bucket_sort_bucket (j k : nat) (l : list loc) :
  bucket heap k (sort (bucket heap j l)) =
  if decide (j = k) then sort (bucket heap j l) else [].
Proof.
  assert (Forall (λ n, getGroupType heap n = Some j) (sort (bucket heap j l)))
    as Hall.
  { apply Array_sort_Forall, Forall_forall. intros n Hn.
    by apply elem_of_bucket in Hn as [? _]. }
  revert Hall. generalize (sort (bucket heap j l)). intros s Hs.
  unfold bucket. induction Hs as [|n s Hn Hs IH]; simpl.
  - by case_decide.
  - rewrite filter_cons, IH. repeat case_decide; congruence.
Qed.

Lemma bucket_sortedImports (k : nat) (l : list loc) :
  k < 5 → bucket heap k (canonical l) = sort (bucket heap k l).
Proof.
  intros Hk. rewrite sortedImports_buckets, !bucket_app.
  rewrite !bucket_sort_bucket.
  destruct k as [|[|[|[|[|k]]]]]; try lia; simpl;
    by rewrite ?app_nil_r.
Qed.

(** The canonical order of a canonical order is itself. *)
Lemma sortedImports_idemp (l : list loc) :
  canonical (canonical l) = canonical l.
Proof.
  rewrite (sortedImports_buckets (canonical l)).
  rewrite !bucket_sortedImports by lia.
  rewrite !Array_sort_idemp. symmetry. apply sortedImports_buckets.
Qed.

(** The five buckets together hold the statements that have a group. *)
Lemma buckets_perm (l : list loc) :
  bucket heap 0 l ++ bucket heap 1 l ++ bucket heap 2 l ++
  bucket heap 3 l ++ bucket heap 4 l
  ≡ₚ filter (λ n, is_Some (getGroupType heap n)) l.
Proof.
  unfold bucket. induction l as [|n l IH]; simpl; [done|].
  rewrite !filter_cons.
  destruct (getGroupType heap n) as [k|] eqn:Hk.
  - pose proof (getGroupType_lt_5 _ _ _ Hk) as Hlt.
    rewrite (decide_True (P := is_Some (Some k))) by done.
    destruct k as [|[|[|[|[|k]]]]]; try lia;
      repeat (case_decide; try congruence); simpl;
      rewrite <- ?Permutation_middle; by constructor.
  - rewrite (decide_False (P := is_Some None)) by (by intros [? ?]).
    by repeat (case_decide; try congruence).
Qed.

Lemma sortedImports_perm (l : list loc) :
  canonical l ≡ₚ filter (λ n, is_Some (getGroupType heap n)) l.
Proof.
  rewrite sortedImports_buckets, !Array_sort_perm. apply buckets_perm.
Qed.

Lemma sortedImports_NoDup (l : list loc) : NoDup l → NoDup (canonical l).
Proof. rewrite sortedImports_perm. apply NoDup_filter. Qed.

(** Within one group and one text length the canonical order keeps the
    statements as they were. *)
Lemma sortedImports_stable (k m : nat) (l : list loc) :
  k < 5 →
  filter (λ n, textLength heap getText n = m ∧ getGroupType heap n = Some k)
    (canonical l) =
  filter (λ n, textLength heap getText n = m ∧ getGroupType heap n = Some k) l.
Proof.
  intros Hk. rewrite <- !list_filter_filter.
  fold (bucket heap k (canonical l)). fold (bucket heap k l).
  by rewrite bucket_sortedImports, Array_sort_stable.
Qed.

(** The canonical order holds exactly the classified statements. *)
Lemma elem_of_sortedImports (n : loc) (l : list loc) :
  n ∈ canonical l ↔ n ∈ l ∧ is_Some (getGroupType heap n).
Proof.
  rewrite sortedImports_buckets, !elem_of_app, !elem_of_Array_sort,
    !elem_of_bucket.
  split.
  - intros [[-> ?]|[[-> ?]|[[-> ?]|[[-> ?]|[-> ?]]]]]; eauto.
  - intros [Hn [k Hk]]. pose proof (getGroupType_lt_5 _ _ _ Hk) as Hlt.
    destruct k as [|[|[|[|[|k]]]]]; try lia; tauto.
Qed.

Lemma sortedImports_sublength (l : list loc) :
  length (canonical l) ≤ length l.
Proof.
  rewrite sortedImports_buckets, !length_app, !Array_sort_length.
  unfold bucket. induction l as [|n l IH]; simpl; [lia|].
  rewrite !filter_cons.
  repeat case_decide; simpl; try congruence; lia.
Qed.

(** An unclassified statement leaves no trace in the canonical order. *)
Lemma sortedImports_skip (n : loc) (l1 l2 : list loc) :
  getGroupType heap n = None →
  canonical (l1 ++ n :: l2) = canonical (l1 ++ l2).
Proof.
  intros Hn. rewrite !sortedImports_buckets. unfold bucket.
  rewrite !filter_app, !filter_cons, Hn.
  by repeat case_decide.
Qed.
End Canonical.

(** ** The comparison loop and the reports *)

Section Reports.
Variable heap : loc → Node.
Variable getText : Node → string.

Local Abbreviation canonical := (sortedImports heap getText).

Lemma classified_getGroupType (n : loc) :
  classified heap n ↔ is_Some (getGroupType heap n).
Proof.
  unfold classified, getGroupType.
  destruct (isThirdParty _); [split; eauto|].
  destruct (isAtImport _); [split; eauto|].
  destruct (isSingleDotRelative _); [split; eauto 6|].
  destruct (isMultiDotRelative _); [split; eauto 6|].
  destruct (isTypeImport _ _); [split; eauto 6|].
  split; [intros [|[|[|[|]]]]; discriminate | intros [? ?]; discriminate].
Qed.

Lemma unclassified_getGroupType (n : loc) :
  ¬ classified heap n ↔ getGroupType heap n = None.
Proof.
  rewrite classified_getGroupType, <- eq_None_not_Some. done.
Qed.

(** The loop over [seq s n] either finds every position equal and reports
    nothing, or stops at the least index that differs. *)
Lemma compare_loop_cases (imp srt : list loc) (s n : nat) :
  (compare_loop heap getText imp srt (seq s n) = [] ∧
   ∀ i, s ≤ i < s + n → imp !! i = srt !! i) ∨
  (∃ i, s ≤ i < s + n ∧ imp !! i ≠ srt !! i ∧
        (∀ j, s ≤ j < i → imp !! j = srt !! j) ∧
        compare_loop heap getText imp srt (seq s n) =
        [ {| report_node := imp !! i;
             report_message := "Imports are not sorted correctly.";
             report_fix := make_fix heap getText imp srt |} ]).
Proof.
  revert s. induction n as [|n IH]; intros s; simpl.
  - left. split; [done|]. intros i Hi. lia.
  - case_bool_decide as Hs.
    + right. exists s. split; [lia|]. split; [done|].
      split; [intros j Hj; lia | done].
    + destruct (IH (S s)) as [[Hnil Hall] | (i & Hi & Hne & Hlt & Heq)].
      * left. split; [done|]. intros i Hi.
        destruct (decide (i = s)) as [->|]; [done|]. apply Hall. lia.
      * right. exists i. split; [lia|]. split; [done|]. split; [|done].
        intros j Hj. destruct (decide (j = s)) as [->|]; [done|].
        apply Hlt. lia.
Qed.

(** [check_imports] in terms of the least differing position. *)
Lemma check_imports_cases (imp : list loc) :
  (check_imports heap getText imp = [] ∧
   ∀ i, i < length imp → imp !! i = canonical imp !! i) ∨
  (∃ i, i < length imp ∧ imp !! i ≠ canonical imp !! i ∧
        (∀ j, j < i → imp !! j = canonical imp !! j) ∧
        check_imports heap getText imp = [mismatch_report heap getText imp i]).
Proof.
  unfold check_imports, mismatch_report.
  destruct (length imp =? 0) eqn:Hlen.
  - apply Nat.eqb_eq in Hlen. left. split; [done|]. intros i Hi. lia.
  - destruct (compare_loop_cases imp (canonical imp) 0 (length imp))
      as [[Hnil Hall] | (i & Hi & Hne & Hlt & Heq)].
    + left. split; [done|]. intros i Hi. apply Hall. lia.
    + right. exists i. split; [lia|]. split; [done|]. split; [|done].
      intros j Hj. apply Hlt. lia.
Qed.

Lemma check_imports_nil_iff (imp : list loc) :
  check_imports heap getText imp = [] ↔ canonical imp = imp.
Proof.
  destruct (check_imports_cases imp)
    as [[Hnil Hall] | (i & Hi & Hne & Hlt & Heq)].
  - split; [intros _|done]. symmetry. apply list_eq. intros i.
    destruct (decide (i < length imp)) as [Hi|Hi]; [by apply Hall|].
    pose proof (sortedImports_sublength heap getText imp).
    rewrite !lookup_ge_None_2; [done | lia | lia].
  - rewrite Heq. split; [done|]. intros Hc. by rewrite Hc in Hne.
Qed.

(** The canonical order passes the check. *)
Lemma check_imports_sortedImports (imp : list loc) :
  check_imports heap getText (canonical imp) = [].
Proof. apply check_imports_nil_iff, sortedImports_idemp. Qed.

Lemma check_imports_empty : check_imports heap getText [] = [].
Proof. reflexivity. Qed.

(** A single classified statement passes the check. *)
Lemma check_imports_singleton (n : loc) :
  classified heap n → check_imports heap getText [n] = [].
Proof.
  intros [k Hk]%classified_getGroupType.
  apply check_imports_nil_iff. rewrite sortedImports_buckets. unfold bucket.
  rewrite !filter_cons, Hk. pose proof (getGroupType_lt_5 _ _ _ Hk).
  destruct k as [|[|[|[|[|k]]]]]; try lia;
    by repeat (case_decide; try congruence).
Qed.

(** A single unclassified statement is reported, and the fix deletes it. *)
Lemma check_imports_singleton_unclassified (n : loc) :
  ¬ classified heap n →
  check_imports heap getText [n] =
  [ {| report_node := Some n;
       report_message := "Imports are not sorted correctly.";
       report_fix := Some {| fix_range := range (heap n);
                             fix_text := EmptyString |} |} ].
Proof.
  intros Hn%unclassified_getGroupType.
  unfold check_imports; simpl.
  assert (canonical [n] = []) as ->.
  { rewrite sortedImports_buckets. unfold bucket. rewrite !filter_cons, Hn.
    by repeat case_decide. }
  simpl. unfold make_fix; simpl. by destruct (range (heap n)).
Qed.

(** On a list that is not empty the [fix] callback finds both nodes. *)
Lemma make_fix_range (imp srt : list loc) (firstImport lastImport : loc) :
  head imp = Some firstImport → last imp = Some lastImport →
  make_fix heap getText imp srt =
  Some {| fix_range := (fst (range (heap firstImport)),
                        snd (range (heap lastImport)));
          fix_text := generateFixedCode heap getText srt |}.
Proof.
  intros Hhead Hlast. unfold make_fix.
  rewrite head_lookup in Hhead. rewrite last_lookup in Hlast.
  replace (length imp - 1) with (pred (length imp)) by lia.
  by rewrite Hhead, Hlast.
Qed.

Lemma Program_check_imports (body : list loc) :
  Program heap getText body =
  check_imports heap getText (importNodes_of heap body).
Proof. reflexivity. Qed.

Lemma importNodes_of_sortedImports (body : list loc) :
  importNodes_of heap (canonical (importNodes_of heap body)) =
  canonical (importNodes_of heap body).
Proof.
  unfold importNodes_of at 1.
  assert (Forall (λ n, type (heap n) = "ImportDeclaration")
            (canonical (importNodes_of heap body))) as Hall.
  { apply Forall_forall. intros n [Hn _]%elem_of_sortedImports.
    unfold importNodes_of in Hn. by apply list_elem_of_filter in Hn as [? _]. }
  induction Hall as [|n l Hn Hl IH]; [done|].
  by rewrite filter_cons_True, IH.
Qed.
End Reports.

(** ** Strings and [trim] *)

Lemma string_app_cons (c : ascii) (s t : string) :
  String c s +:+ t = String c (s +:+ t).
Proof. reflexivity. Qed.

Lemma string_app_nil_r (s : string) : s +:+ EmptyString = s.
Proof. induction s as [|c s IH]; [done|]. by rewrite string_app_cons, IH. Qed.

Lemma string_app_assoc (s t u : string) : (s +:+ t) +:+ u = s +:+ t +:+ u.
Proof. induction s as [|c s IH]; [done|]. by rewrite !string_app_cons, IH. Qed.

Lemma string_app_length (s t : string) :
  String.length (s +:+ t) = String.length s + String.length t.
Proof.
  induction s as [|c s IH]; [done|].
  rewrite string_app_cons. simpl. by rewrite IH.
Qed.

Lemma all_white_space_app (s t : string) :
  all_white_space (s +:+ t) = all_white_space s && all_white_space t.
Proof.
  induction s as [|c s IH]; [done|].
  rewrite string_app_cons. simpl. by rewrite IH, andb_assoc.
Qed.

Lemma solid_not_blank (o : option ascii) : solid o → not_blank o.
Proof. intros (c & -> & Hc) c' [= <-]. done. Qed.

(** [trimStart] removes a prefix of white space and stops at the first
    character that is not. *)
Lemma trimStart_spec (s : string) :
  ∃ w, all_white_space w = true ∧ s = w +:+ trimStart s ∧
       not_blank (first_char (trimStart s)).
Proof.
  induction s as [|c s (w & Hw & Hs & Hf)]; simpl.
  - exists EmptyString. repeat split. intros c [=].
  - destruct (is_white_space c) eqn:Hc.
    + exists (String c w). simpl. rewrite Hc, Hw, string_app_cons.
      repeat split; [by f_equal | done].
    + exists EmptyString. repeat split. intros c' [= <-]. done.
Qed.

Lemma trimStart_solid (s : string) : solid (first_char s) → trimStart s = s.
Proof.
  destruct s as [|c s]; intros (c' & [= <-] & Hc); simpl. by rewrite Hc.
Qed.

(** [trimEnd] removes a suffix of white space and stops at the last
    character that is not. *)
Lemma trimEnd_spec (s : string) :
  ∃ w, all_white_space w = true ∧ s = trimEnd s +:+ w ∧
       not_blank (last_char (trimEnd s)).
Proof.
  induction s as [|c s (w & Hw & Hs & Hl)]; simpl.
  - exists EmptyString. repeat split. intros c [=].
  - destruct (trimEnd s) as [|d t] eqn:Ht.
    + destruct (is_white_space c) eqn:Hc.
      * exists (String c w). simpl. rewrite Hc, Hw.
        repeat split; [by rewrite Hs | intros c' [=]].
      * exists w. rewrite string_app_cons.
        repeat split; [done | by rewrite Hs | ]. intros c' [= <-]. done.
    + exists w. rewrite string_app_cons.
      repeat split; [done | by rewrite Hs at 1 | ]. exact Hl.
Qed.

Lemma trimEnd_first_char (s : string) :
  not_blank (first_char s) → not_blank (first_char (trimEnd s)).
Proof.
  destruct s as [|c s]; simpl; [done|]. intros Hc.
  destruct (trimEnd s); [|done].
  destruct (is_white_space c) eqn:Hw; [intros c' [=] | done].
Qed.

Lemma trimEnd_white_space (w : string) :
  all_white_space w = true → trimEnd w = EmptyString.
Proof.
  induction w as [|e w IH]; simpl; [done|].
  intros [He Hw]%andb_true_iff. by rewrite IH, He.
Qed.

(** A solid string followed by white space trims back to itself. *)
Lemma trimEnd_app_white_space (s w : string) :
  solid (last_char s) → all_white_space w = true → trimEnd (s +:+ w) = s.
Proof.
  intros Hs Hw. induction s as [|c s IH].
  - by destruct Hs as (? & [=] & _).
  - rewrite string_app_cons. simpl. destruct s as [|d s].
    + destruct Hs as (c' & [= <-] & Hc).
      change (EmptyString +:+ w) with w.
      by rewrite trimEnd_white_space, Hc.
    + by rewrite (IH Hs).
Qed.

(** [trim] peels white space off both ends and nothing else. *)
Lemma trim_spec (s : string) :
  ∃ w1 w2, all_white_space w1 = true ∧ all_white_space w2 = true ∧
           s = w1 +:+ trim s +:+ w2 ∧
           not_blank (first_char (trim s)) ∧ not_blank (last_char (trim s)).
Proof.
  unfold trim.
  destruct (trimStart_spec s) as (w1 & Hw1 & Hs1 & Hf).
  destruct (trimEnd_spec (trimStart s)) as (w2 & Hw2 & Hs2 & Hl).
  exists w1, w2. repeat split; try done.
  - by rewrite <- Hs2.
  - by apply trimEnd_first_char.
Qed.

Lemma first_char_app (s t : string) :
  solid (first_char s) → first_char (s +:+ t) = first_char s.
Proof. destruct s; [intros (? & [=] & _) | done]. Qed.

Lemma last_char_app (s t : string) :
  t ≠ EmptyString → last_char (s +:+ t) = last_char t.
Proof.
  intros Ht. induction s as [|c s IH]; [done|].
  rewrite string_app_cons. simpl. rewrite IH.
  destruct (s +:+ t) eqn:Hst; [|done].
  destruct s; [by simplify_eq/= | by rewrite string_app_cons in Hst].
Qed.

(** ** The text built by [generateFixedCode] *)

Section FixedCode.
Variable heap : loc → Node.
Variable getText : Node → string.

Local Abbreviation text := (λ n, getText (heap n)).
Local Abbreviation lines := (fixed_lines heap getText).

Lemma unlines_app (ls1 ls2 : list string) :
  unlines (ls1 ++ ls2) = unlines ls1 +:+ unlines ls2.
Proof.
  induction ls1 as [|x ls1 IH]; simpl; [done|].
  by rewrite IH, !string_app_assoc.
Qed.

(** The lines that follow the text of [a] when [l] comes after [a]. *)
Lemma fixed_lines_cons (a : loc) (l : list loc) :
  lines (a :: l) =
  text a :: match l with
            | [] => []
            | b :: _ =>
                (if decide (getGroupType heap a = getGroupType heap b)
                 then [] else [EmptyString]) ++ lines l
            end.
Proof. reflexivity. Qed.

(** Past the first statement the index is positive and
    [currentGroupType] is the group type of the previous statement. *)
Lemma forEach_indexed_after (a : loc) (l : list loc) (i : nat) (code : string) :
  fst (forEach_indexed (generateFixedCode_step heap getText) l (S i)
         (code, Some (getGroupType heap a))) =
  code +:+ unlines (match lines (a :: l) with [] => [] | _ :: ls => ls end).
Proof.
  revert a i code. induction l as [|b l IH]; intros a i code.
  - simpl. by rewrite string_app_nil_r.
  - rewrite fixed_lines_cons.
    cbn [forEach_indexed generateFixedCode_step].
    replace (S i + 1) with (S (i + 1)) by lia. rewrite IH.
    rewrite unlines_app, (fixed_lines_cons b l). cbn [negb Nat.eqb andb].
    rewrite andb_true_r.
    destruct (decide (getGroupType heap a = getGroupType heap b)) as [Hg|Hg].
    + rewrite bool_decide_eq_false_2 by (rewrite Hg; auto).
      simpl. by rewrite !string_app_assoc.
    + rewrite bool_decide_eq_true_2 by congruence.
      simpl. by rewrite !string_app_assoc.
Qed.

(** Before the trim the text is the lines of [fixed_lines], each with
    its line break. *)
Lemma generateFixedCode_code_lines (l : list loc) :
  generateFixedCode_code heap getText l = unlines (lines l).
Proof.
  unfold generateFixedCode_code. destruct l as [|a l]; [done|].
  cbn [forEach_indexed generateFixedCode_step Nat.eqb negb andb].
  rewrite andb_false_r. change (0 + 1) with 1.
  rewrite forEach_indexed_after, fixed_lines_cons. simpl.
  by rewrite !string_app_assoc.
Qed.

Lemma unlines_join_lines (ls : list string) :
  ls ≠ [] → unlines ls = join_lines ls +:+ LF.
Proof.
  induction ls as [|x ls IH]; [done|]. intros _.
  destruct ls as [|y ls]; simpl.
  - done.
  - simpl in IH. rewrite IH by done. by rewrite !string_app_assoc.
Qed.

Lemma join_lines_first_char (x : string) (ls : list string) :
  solid (first_char x) →
  first_char (join_lines (x :: ls)) = first_char x.
Proof.
  intros Hx. destruct ls; simpl; [done|]. by apply first_char_app.
Qed.

Lemma join_lines_last_char (ls1 ls2 : list string) :
  solid (last_char (join_lines ls2)) →
  last_char (join_lines (ls1 ++ ls2)) = last_char (join_lines ls2).
Proof.
  intros H2. induction ls1 as [|x ls1 IH]; [done|].
  assert (join_lines (ls1 ++ ls2) ≠ EmptyString) as Hne.
  { intros Heq. rewrite Heq in IH. destruct H2 as (c & Hc & _).
    rewrite Hc in IH. discriminate. }
  change ((x :: ls1) ++ ls2) with (x :: (ls1 ++ ls2)).
  destruct (ls1 ++ ls2) as [|y r] eqn:Hr; [done|].
  change (join_lines (x :: y :: r)) with (x +:+ LF +:+ join_lines (y :: r)).
  rewrite last_char_app, last_char_app; [done | done |].
  by destruct (join_lines (y :: r)).
Qed.

(** A line is empty or the text of one of the statements. *)
Lemma elem_of_fixed_lines (line : string) (l : list loc) :
  line ∈ lines l → line = EmptyString ∨ ∃ n, n ∈ l ∧ line = text n.
Proof.
  induction l as [|a l IH]; [by intros ?%elem_of_nil|].
  rewrite fixed_lines_cons.
  intros [->|Hin]%elem_of_cons.
  - right. exists a. split; [left | done].
  - destruct l as [|b l]; [by apply elem_of_nil in Hin|].
    apply elem_of_app in Hin as [Hin|Hin].
    + left. destruct (decide _); [by apply elem_of_nil in Hin|].
      by apply list_elem_of_singleton in Hin.
    + destruct (IH Hin) as [->|(n & Hn & ->)]; [by left|].
      right. exists n. split; [by right | done].
Qed.

(** The last line is the text of the last statement. *)
Lemma fixed_lines_snoc (l : list loc) (z : loc) :
  ∃ ls, lines (l ++ [z]) = ls ++ [text z].
Proof.
  induction l as [|a l (ls & IH)].
  - by exists [].
  - change ((a :: l) ++ [z]) with (a :: (l ++ [z])).
    rewrite fixed_lines_cons. destruct (l ++ [z]) as [|b r] eqn:Hr.
    + by destruct l.
    + rewrite IH. eexists (_ :: _ ++ ls). simpl. by rewrite <- app_assoc.
Qed.

(** When the first text starts and the last text ends with a character
    that is not white space, the trim removes the final line break and
    nothing else. *)
Lemma generateFixedCode_join_lines (l : list loc) (a z : loc) :
  head l = Some a → last l = Some z →
  solid (first_char (text a)) → solid (last_char (text z)) →
  generateFixedCode heap getText l = join_lines (lines l).
Proof.
  intros Ha Hz Hfa Hlz. unfold generateFixedCode.
  rewrite generateFixedCode_code_lines.
  destruct l as [|a' l]; [done|]. injection Ha as ->.
  rewrite unlines_join_lines by done.
  assert (solid (last_char (join_lines (lines (a :: l))))) as Hlast.
  { apply last_Some in Hz as (l' & ->).
    destruct (fixed_lines_snoc l' z) as (ls & ->).
    by rewrite join_lines_last_char. }
  unfold trim. rewrite trimStart_solid.
  - by apply trimEnd_app_white_space.
  - rewrite first_char_app;
      rewrite fixed_lines_cons, join_lines_first_char; done.
Qed.
End FixedCode.

(** ** Relative order *)

Section Order.
Context {A : Type}.
Implicit Types (a b : A) (l k : list A).

Lemma precedes_sublist a b l : precedes a b l ↔ [a; b] `sublist_of` l.
Proof.
  split.
  - intros (i & j & Hij & Hi & Hj).
    rewrite <- (take_drop_middle l i a Hi).
    apply sublist_inserts_l, sublist_skip, singleton_sublist_l.
    apply list_elem_of_lookup. exists (j - S i).
    rewrite lookup_drop. by replace (S i + (j - S i)) with j by lia.
  - intros (k1 & k2 & -> & H)%sublist_cons_l.
    apply singleton_sublist_l, list_elem_of_lookup in H as [j Hj].
    unfold precedes. exists (length k1), (length k1 + S j).
    split; [lia|]. split.
    + by apply list_lookup_middle.
    + rewrite lookup_app_r by lia.
      by replace (length k1 + S j - length k1) with (S j) by lia.
Qed.

Lemma sublist_filter_mono (P : A → Prop) `{!∀ x, Decision (P x)} l k :
  l `sublist_of` k → filter P l `sublist_of` filter P k.
Proof.
  induction 1 as [|x l k Hlk IH|x l k Hlk IH]; [done|..];
    rewrite ?filter_cons; case_decide;
    auto using sublist_skip, sublist_cons.
Qed.

(** Order in a selection is order in the list, and conversely for two
    selected elements. *)
Lemma precedes_filter (P : A → Prop) `{!∀ x, Decision (P x)} a b l :
  P a → P b → precedes a b l ↔ precedes a b (filter P l).
Proof.
  intros Ha Hb. rewrite !precedes_sublist. split.
  - intros Hs%(sublist_filter_mono P).
    by rewrite !filter_cons_True in Hs by done.
  - intros Hs. etrans; [exact Hs|]. apply sublist_filter.
Qed.

Lemma precedes_elem_of a b l : precedes a b l → a ∈ l ∧ b ∈ l.
Proof.
  intros (i & j & _ & Hi & Hj). split; apply list_elem_of_lookup; eauto.
Qed.

(** In a list without repetition, two elements are in one order only. *)
Lemma precedes_asym a b l : NoDup l → precedes a b l → ¬ precedes b a l.
Proof.
  intros Hl (i & j & Hij & Hi & Hj) (i' & j' & Hij' & Hi' & Hj').
  pose proof (NoDup_lookup l i j' a Hl Hi Hj').
  pose proof (NoDup_lookup l j i' b Hl Hj Hi'). lia.
Qed.

Lemma precedes_total a b l :
  a ∈ l → b ∈ l → a ≠ b → precedes a b l ∨ precedes b a l.
Proof.
  intros [i Hi]%list_elem_of_lookup [j Hj]%list_elem_of_lookup Hab.
  unfold precedes. destruct (decide (i < j)); [left; by exists i, j|].
  right. exists j, i. split; [|done].
  assert (i ≠ j) by (intros ->; congruence). lia.
Qed.
End Order.

(** ** Splicing a replacement into the file *)

Lemma string_get_ge (s : string) (i : nat) :
  String.length s ≤ i → String.get i s = None.
Proof.
  revert i. induction s as [|c s IH]; intros i Hi; simpl; [done|].
  destruct i as [|i]; simpl in *; [lia|]. apply IH. lia.
Qed.

Lemma string_length_prefix (s : string) (n : nat) :
  n ≤ String.length s → String.length (String.substring 0 n s) = n.
Proof.
  revert n. induction s as [|c s IH]; intros [|n] Hn; simpl in *;
    try done; try lia.
  rewrite IH; [done | lia].
Qed.

(** The characters in front of the replaced range stay where they are. *)
Lemma replaceTextRange_before (text : string) (f : Fix) (i : nat) :
  fst (fix_range f) ≤ String.length text →
  i < fst (fix_range f) →
  String.get i (replaceTextRange text f) = String.get i text.
Proof.
  intros Hs Hi. unfold replaceTextRange.
  rewrite <- String.append_correct1
    by (rewrite string_length_prefix; lia).
  rewrite String.substring_correct1 by done. by rewrite Nat.add_0_r.
Qed.

(** The characters behind the replaced range move by the difference of the
    lengths and are otherwise unchanged. *)
Lemma replaceTextRange_after (text : string) (f : Fix) (i : nat) :
  fst (fix_range f) ≤ String.length text →
  snd (fix_range f) ≤ i →
  String.get (fst (fix_range f) + String.length (fix_text f)
              + (i - snd (fix_range f))) (replaceTextRange text f)
  = String.get i text.
Proof.
  intros Hs Hi. unfold replaceTextRange.
  set (e := snd (fix_range f)) in *. set (b := fst (fix_range f)) in *.
  replace (b + String.length (fix_text f) + (i - e))
    with ((String.length (fix_text f) + (i - e))
          + String.length (String.substring 0 b text))
    by (rewrite string_length_prefix; lia).
  rewrite <- String.append_correct2.
  rewrite (Nat.add_comm (String.length (fix_text f))).
  rewrite <- String.append_correct2.
  destruct (decide (i < String.length text)) as [Hlt|Hge].
  - rewrite String.substring_correct1 by lia.
    by replace (i - e + e) with i by lia.
  - rewrite String.substring_correct2 by lia.
    symmetry. apply string_get_ge. lia.
Qed.

(** * The claims *)

(** ** Classification *)

(** C1, as stated, fails: the path ['./x'] is not put in group 2
    (single-dot-relative).  Group 2 stays empty and the statement sits in
    group 3. *)
Lemma C1_dot_slash_not_single_dot :
  source_value (heap_for file_sorted 1) = "./x" ∧
  getGroupType (heap_for file_sorted) 1 ≠ Some 2 ∧
  groupImports_groups (heap_for file_sorted) [0; 1] = [[0]; []; []; [1]; []].
Proof. repeat split. discriminate. Qed.

(** C1, amended: a statement whose path starts with ['./'] has group type 3
    (multi-dot-relative), and [groupImports] pushes it to [groups[3]] and
    not to [groups[2]] (single-dot-relative). *)
Theorem C1_dot_slash_is_multi_dot
    (heap : loc → Node) (importNodes : list loc) (node : loc) (rest : string) :
  source_value (heap node) = String "." (String "/" rest) →
  node ∈ importNodes →
  getGroupType heap node = Some 3 ∧
  ∃ g2 g3,
    groupImports_groups heap importNodes !! 2 = Some g2 ∧ (node ∉ g2) ∧
    groupImports_groups heap importNodes !! 3 = Some g3 ∧ node ∈ g3.
Proof.
  intros Hp Hn.
  assert (getGroupType heap node = Some 3) as Hg.
  { unfold getGroupType. rewrite Hp.
    by destruct (dot_slash_predicates rest) as (-> & -> & -> & ->). }
  split; [done|].
  rewrite groupImports_groups_buckets.
  exists (bucket heap 2 importNodes), (bucket heap 3 importNodes).
  repeat split.
  - rewrite elem_of_bucket. intros [? _]. congruence.
  - by apply elem_of_bucket.
Qed.

Lemma C1_dot_slash_is_multi_dot_witness :
  source_value (heap_for file_sorted 1) = String "." (String "/" "x") ∧
  (1 : loc) ∈ [0; 1] ∧
  getGroupType (heap_for file_sorted) 1 = Some 3 ∧
  ∃ g2 g3,
    groupImports_groups (heap_for file_sorted) [0; 1] !! 2 = Some g2 ∧
    (1 ∉ g2) ∧
    groupImports_groups (heap_for file_sorted) [0; 1] !! 3 = Some g3 ∧
    1 ∈ g3.
Proof.
  assert ((1 : loc) ∈ [0; 1]) as Hin by (right; left).
  split; [reflexivity|]. split; [exact Hin|].
  exact (C1_dot_slash_is_multi_dot (heap_for file_sorted) [0; 1] 1 "x"
           eq_refl Hin).
Defined.

(** C2, as stated, fails: the paths ['/abs'] and [''] start with none of
    ['.'], ['..'], ['@'], and neither is third-party; both statements fall
    through every test. *)
Lemma C2_slash_and_empty_not_third_party :
  (String.prefix "." "/abs" = false ∧ String.prefix ".." "/abs" = false ∧
   String.prefix "@" "/abs" = false ∧
   source_value (heap_for file_absolute 0) = "/abs" ∧
   getGroupType (heap_for file_absolute) 0 ≠ Some 0 ∧
   groupImports_groups (heap_for file_absolute) [0] = [[]; []; []; []; []]) ∧
  (String.prefix "." "" = false ∧ String.prefix ".." "" = false ∧
   String.prefix "@" "" = false ∧
   source_value (heap_for file_empty_path 0) = "" ∧
   getGroupType (heap_for file_empty_path) 0 ≠ Some 0 ∧
   groupImports_groups (heap_for file_empty_path) [0] = [[]; []; []; []; []]).
Proof. repeat split; discriminate. Qed.

(** C2, amended: a statement is third-party (group type 0, pushed to
    [groups[0]]) if and only if its path is not empty and its first
    character is none of ['.'], ['/'], ['@']. *)
Theorem C2_third_party_iff
    (heap : loc → Node) (importNodes : list loc) (node : loc) :
  (getGroupType heap node = Some 0 ↔
   ∃ c rest, source_value (heap node) = String c rest ∧
             c ∉ ["."; "/"; "@"]%char) ∧
  ∃ g0, groupImports_groups heap importNodes !! 0 = Some g0 ∧
        (node ∈ g0 ↔
         node ∈ importNodes ∧
         ∃ c rest, source_value (heap node) = String c rest ∧
                   c ∉ ["."; "/"; "@"]%char).
Proof.
  assert (getGroupType heap node = Some 0 ↔
          isThirdParty (source_value (heap node)) = true) as Hg.
  { unfold getGroupType. destruct (isThirdParty _); [done|].
    repeat (match goal with |- context [if ?b then _ else _] =>
                              destruct b; [done|] end).
    done. }
  split; [by rewrite <- isThirdParty_spec|].
  rewrite groupImports_groups_buckets. exists (bucket heap 0 importNodes).
  split; [done|]. rewrite elem_of_bucket, <- isThirdParty_spec, <- Hg. tauto.
Qed.

(** ** Empty and one-statement files *)

(** C3 at the file that consists of [import a from '.']: the statement
    passes none of the five tests, [sortedImports] is empty, the comparison
    at index 0 finds [undefined], and the rule reports the statement with a
    fix that replaces it by the empty text. *)
Lemma C3_single_index_import_is_reported :
  ¬ classified (heap_for file_index) 0 ∧
  sortedImports (heap_for file_index) (getText_for file_index) [0] = [] ∧
  Program (heap_for file_index) (getText_for file_index) [0] =
  [ {| report_node := Some 0;
       report_message := "Imports are not sorted correctly.";
       report_fix := Some {| fix_range := (0, 17);
                             fix_text := EmptyString |} |} ].
Proof.
  split; [|by split].
  intros [H|[H|[H|[H|H]]]]; discriminate H.
Qed.

(** ** Unclassified statements *)

(** C4: a statement that passes none of the four path tests and is not
    type-only is in no group, before and after the empty groups are
    removed, and is not in [sortedImports]; every line of the generated
    text is empty or the text of another, classified statement of the
    input, and the generated text is the one generated for the input
    without the statement. *)
Theorem C4_unclassified_statement_vanishes
    (heap : loc → Node) (getText : Node → string)
    (importNodes : list loc) (node : loc) :
  isThirdParty (source_value (heap node)) = false →
  isAtImport (source_value (heap node)) = false →
  isSingleDotRelative (source_value (heap node)) = false →
  isMultiDotRelative (source_value (heap node)) = false →
  isTypeImport heap node = false →
  (∀ group, group ∈ groupImports_groups heap importNodes → node ∉ group) ∧
  (∀ group, group ∈ groupImports heap importNodes → node ∉ group) ∧
  (node ∉ sortedImports heap getText importNodes) ∧
  (∀ line,
     line ∈ fixed_lines heap getText (sortedImports heap getText importNodes) →
     line = EmptyString ∨
     ∃ n, n ∈ importNodes ∧ n ≠ node ∧ classified heap n ∧
          line = getText (heap n)) ∧
  ∀ before after, importNodes = before ++ node :: after →
    sortedImports heap getText importNodes =
    sortedImports heap getText (before ++ after) ∧
    generateFixedCode heap getText (sortedImports heap getText importNodes) =
    generateFixedCode heap getText
      (sortedImports heap getText (before ++ after)).
Proof.
  intros H0 H1 H2 H3 H4.
  assert (getGroupType heap node = None) as Hg.
  { unfold getGroupType. by rewrite H0, H1, H2, H3, H4. }
  assert (∀ group, group ∈ groupImports_groups heap importNodes →
                   node ∉ group) as Hgroups.
  { intros group. rewrite groupImports_groups_buckets.
    rewrite !elem_of_cons, elem_of_nil.
    intros [->|[->|[->|[->|[->|[]]]]]]; rewrite elem_of_bucket;
      intros [? _]; congruence. }
  assert (node ∉ sortedImports heap getText importNodes) as Hsorted.
  { rewrite elem_of_sortedImports, Hg. intros [_ [? ?]]. discriminate. }
  split; [exact Hgroups|]. split; [|split; [exact Hsorted|split]].
  - intros group Hin. apply Hgroups.
    unfold groupImports in Hin. by apply list_elem_of_filter in Hin as [_ ?].
  - intros line [->|(n & Hn & ->)]%elem_of_fixed_lines; [by left|].
    right. exists n. pose proof Hn as [? ?]%elem_of_sortedImports.
    split; [done|]. split; [congruence|].
    split; [by apply classified_getGroupType | done].
  - intros before after ->.
    by rewrite (sortedImports_skip heap getText node before after Hg).
Qed.

Lemma C4_unclassified_statement_vanishes_witness :
  let heap := heap_for file_with_index in
  let getText := getText_for file_with_index in
  isThirdParty (source_value (heap 1)) = false ∧
  isAtImport (source_value (heap 1)) = false ∧
  isSingleDotRelative (source_value (heap 1)) = false ∧
  isMultiDotRelative (source_value (heap 1)) = false ∧
  isTypeImport heap 1 = false ∧
  generateFixedCode heap getText (sortedImports heap getText [0; 1; 2]) =
  join_lines ["import c from 'c'"; "import bb from 'bb'"] ∧
  (∀ group, group ∈ groupImports_groups heap [0; 1; 2] → 1 ∉ group) ∧
  (∀ group, group ∈ groupImports heap [0; 1; 2] → 1 ∉ group) ∧
  (1 ∉ sortedImports heap getText [0; 1; 2]) ∧
  (∀ line,
     line ∈ fixed_lines heap getText (sortedImports heap getText [0; 1; 2]) →
     line = EmptyString ∨
     ∃ n, n ∈ [0; 1; 2] ∧ n ≠ 1 ∧ classified heap n ∧
          line = getText (heap n)) ∧
  ∀ before after, [0; 1; 2] = before ++ 1 :: after →
    sortedImports heap getText [0; 1; 2] =
    sortedImports heap getText (before ++ after) ∧
    generateFixedCode heap getText (sortedImports heap getText [0; 1; 2]) =
    generateFixedCode heap getText
      (sortedImports heap getText (before ++ after)).
Proof.
  intros heap getText. do 6 (split; [reflexivity|]).
  exact (C4_unclassified_statement_vanishes heap getText [0; 1; 2] 1
           eq_refl eq_refl eq_refl eq_refl eq_refl).
Defined.

(** ** Idempotence *)

(** C5: for every program body, the rule run on the import statements in
    canonical order reports nothing, and the canonical order of the
    canonical order is the canonical order. *)
Theorem C5_canonical_order_is_fixed_point
    (heap : loc → Node) (getText : Node → string) (body : list loc) :
  let importNodes := importNodes_of heap body in
  Program heap getText (sortedImports heap getText importNodes) = [] ∧
  check_imports heap getText (sortedImports heap getText importNodes) = [] ∧
  sortedImports heap getText (sortedImports heap getText importNodes) =
  sortedImports heap getText importNodes.
Proof.
  intros importNodes. split; [|split].
  - rewrite Program_check_imports. unfold importNodes.
    rewrite importNodes_of_sortedImports.
    apply check_imports_sortedImports.
  - apply check_imports_sortedImports.
  - apply sortedImports_idemp.
Qed.

(** ** Reporting *)

(** C6: the rule reports if and only if some position of the original list
    differs from the canonical order; then there is exactly one report, its
    node is the statement at the least position that differs. *)
Theorem C6_one_report_at_first_mismatch
    (heap : loc → Node) (getText : Node → string) (body : list loc) :
  let importNodes := importNodes_of heap body in
  let sorted := sortedImports heap getText importNodes in
  (Program heap getText body ≠ [] ↔
   ∃ i, i < length importNodes ∧ importNodes !! i ≠ sorted !! i) ∧
  (Program heap getText body = [] ↔ sorted = importNodes) ∧
  (Program heap getText body = [] ∨
   ∃ i node,
     Program heap getText body =
     [ {| report_node := Some node;
          report_message := "Imports are not sorted correctly.";
          report_fix := make_fix heap getText importNodes sorted |} ] ∧
     importNodes !! i = Some node ∧
     sorted !! i ≠ Some node ∧
     ∀ j, j < i → importNodes !! j = sorted !! j).
Proof.
  intros importNodes sorted.
  rewrite Program_check_imports. fold importNodes.
  split; [|split].
  - destruct (check_imports_cases heap getText importNodes)
      as [[Hnil Hall] | (i & Hi & Hne & Hlt & Heq)].
    + rewrite Hnil. split; [done|]. intros (i & Hi & Hne).
      by specialize (Hall i Hi).
    + rewrite Heq. split; [|done]. intros _. by exists i.
  - apply check_imports_nil_iff.
  - destruct (check_imports_cases heap getText importNodes)
      as [[Hnil Hall] | (i & Hi & Hne & Hlt & Heq)]; [by left|].
    right. destruct (lookup_lt_is_Some_2 importNodes i Hi) as [node Hnode].
    exists i, node. rewrite Heq. unfold mismatch_report. rewrite Hnode.
    split; [done|]. split; [done|]. split; [|done].
    fold sorted in Hne. congruence.
Qed.

(** ** Stability *)

(** C7: two statements of the same category whose texts have equal length
    are in the canonical order in the order they have in the input: the
    one that comes first in the input comes first in the canonical order,
    and, the input holding every node once, conversely. *)
Theorem C7_ties_keep_input_order
    (heap : loc → Node) (getText : Node → string)
    (importNodes : list loc) (a b : loc) :
  classified heap a →
  getGroupType heap a = getGroupType heap b →
  textLength heap getText a = textLength heap getText b →
  (precedes a b importNodes →
   precedes a b (sortedImports heap getText importNodes)) ∧
  (NoDup importNodes →
   precedes a b (sortedImports heap getText importNodes) →
   precedes a b importNodes).
Proof.
  intros [k Hk]%classified_getGroupType Hg Hlen.
  pose proof (getGroupType_lt_5 _ _ _ Hk) as Hlt.
  set (P := λ n, textLength heap getText n = textLength heap getText a ∧
                 getGroupType heap n = Some k).
  assert (P a) as Ha by done.
  assert (P b) as Hb by (split; congruence).
  assert (∀ x y, P x → P y → precedes x y importNodes →
                 precedes x y (sortedImports heap getText importNodes))
    as Hfwd.
  { intros x y Hx Hy Hxy.
    apply (proj2 (precedes_filter P x y _ Hx Hy)). unfold P.
    rewrite sortedImports_stable by done.
    by apply (proj1 (precedes_filter P x y _ Hx Hy)). }
  split; [by apply Hfwd|]. intros Hnd Hab.
  pose proof (sortedImports_NoDup heap getText _ Hnd) as Hnd'.
  destruct (precedes_elem_of _ _ _ Hab) as
    [[Hina _]%elem_of_sortedImports [Hinb _]%elem_of_sortedImports].
  assert (a ≠ b) as Hne.
  { intros <-. by apply (precedes_asym a a _ Hnd' Hab). }
  destruct (precedes_total a b importNodes Hina Hinb Hne) as [|Hba]; [done|].
  destruct (precedes_asym a b _ Hnd' Hab). by apply Hfwd.
Qed.

Lemma C7_ties_keep_input_order_witness :
  let heap := heap_for file_ties in
  let getText := getText_for file_ties in
  classified heap 0 ∧
  getGroupType heap 0 = getGroupType heap 1 ∧
  textLength heap getText 0 = textLength heap getText 1 ∧
  sortedImports heap getText [0; 1; 2; 3] = [2; 0; 1; 3] ∧
  (precedes 0 1 [0; 1; 2; 3] →
   precedes 0 1 (sortedImports heap getText [0; 1; 2; 3])) ∧
  (NoDup [0; 1; 2; 3] →
   precedes 0 1 (sortedImports heap getText [0; 1; 2; 3]) →
   precedes 0 1 [0; 1; 2; 3]).
Proof.
  intros heap getText.
  assert (classified heap 0) as Hc by (left; reflexivity).
  split; [exact Hc|]. do 3 (split; [reflexivity|]).
  exact (C7_ties_keep_input_order heap getText [0; 1; 2; 3] 0 1
           Hc eq_refl eq_refl).
Defined.

(** ** The replacement text *)

(** C8: the generated text is the trimmed concatenation of lines, each
    followed by a line break.  The lines are the statement texts in
    order, with one empty line in front of every statement whose group
    type differs from that of the statement before it, and no other line
    ([fixed_lines]).  The trim removes white space at the two ends and
    nothing else; when the first text starts and the last text ends with a
    character that is not white space, it removes exactly the final line
    break. *)
Theorem C8_generated_text_layout
    (heap : loc → Node) (getText : Node → string) (sortedImports : list loc) :
  let lines := fixed_lines heap getText sortedImports in
  let canonicalText := generateFixedCode heap getText sortedImports in
  generateFixedCode_code heap getText sortedImports = unlines lines ∧
  canonicalText = trim (unlines lines) ∧
  (∃ w1 w2, all_white_space w1 = true ∧ all_white_space w2 = true ∧
            unlines lines = w1 +:+ canonicalText +:+ w2) ∧
  not_blank (last_char canonicalText) ∧
  (∀ first last_,
     head sortedImports = Some first → last sortedImports = Some last_ →
     solid (first_char (getText (heap first))) →
     solid (last_char (getText (heap last_))) →
     canonicalText = join_lines lines ∧
     unlines lines = canonicalText +:+ LF).
Proof.
  intros lines canonicalText.
  assert (generateFixedCode_code heap getText sortedImports = unlines lines)
    as Hcode by apply generateFixedCode_code_lines.
  assert (canonicalText = trim (unlines lines)) as Htrim.
  { unfold canonicalText, generateFixedCode. by rewrite Hcode. }
  split; [done|]. split; [done|].
  destruct (trim_spec (unlines lines)) as (w1 & w2 & Hw1 & Hw2 & Heq & _ & Hl).
  rewrite <- Htrim in Heq, Hl.
  split; [by exists w1, w2|]. split; [done|].
  intros first last_ Hfirst Hlast Hf Hz.
  assert (canonicalText = join_lines lines) as Hjoin.
  { by apply (generateFixedCode_join_lines heap getText _ first last_). }
  split; [done|]. rewrite Hjoin. apply unlines_join_lines.
  unfold lines. destruct sortedImports; [done|].
  by rewrite fixed_lines_cons.
Qed.

Lemma C8_generated_text_layout_witness :
  let heap := heap_for file_mixed in
  let getText := getText_for file_mixed in
  head [0; 2; 1] = Some 0 ∧ last [0; 2; 1] = Some 1 ∧
  solid (first_char (getText (heap 0))) ∧
  solid (last_char (getText (heap 1))) ∧
  fixed_lines heap getText [0; 2; 1] =
  [ "import z from 'longmodulename'"; "";
    "import {B} from '@scope/pkg'"; "";
    "import a from './x'" ] ∧
  generateFixedCode heap getText [0; 2; 1] =
  join_lines (fixed_lines heap getText [0; 2; 1]).
Proof.
  intros heap getText.
  assert (solid (first_char (getText (heap 0)))) as Hf
    by (exists "i"%char; split; reflexivity).
  assert (solid (last_char (getText (heap 1)))) as Hz
    by (exists "'"%char; split; reflexivity).
  split; [reflexivity|]. split; [reflexivity|].
  split; [exact Hf|]. split; [exact Hz|]. split; [reflexivity|].
  exact (proj1 (proj2 (proj2 (proj2 (proj2
           (C8_generated_text_layout heap getText [0; 2; 1]))))
           0 1 eq_refl eq_refl Hf Hz)).
Defined.

(** ** The replaced range *)

(** C9: every report carries a fix whose range runs from the start of the
    first import statement to the end of the last one and whose text is
    the generated text; splicing it into the file leaves every character
    in front of the range in place and every character behind the range
    unchanged, moved by the difference of the lengths. *)
Theorem C9_fix_replaces_import_block
    (heap : loc → Node) (getText : Node → string) (body : list loc)
    (r : Report) :
  r ∈ Program heap getText body →
  let importNodes := importNodes_of heap body in
  ∃ firstImport lastImport f,
    head importNodes = Some firstImport ∧
    last importNodes = Some lastImport ∧
    report_fix r = Some f ∧
    fix_range f = (fst (range (heap firstImport)),
                   snd (range (heap lastImport))) ∧
    fix_text f =
    generateFixedCode heap getText (sortedImports heap getText importNodes) ∧
    ∀ text, fst (fix_range f) ≤ String.length text →
      (∀ i, i < fst (range (heap firstImport)) →
            String.get i (replaceTextRange text f) = String.get i text) ∧
      (∀ i, snd (range (heap lastImport)) ≤ i →
            String.get (fst (fix_range f) + String.length (fix_text f)
                        + (i - snd (fix_range f)))
              (replaceTextRange text f)
            = String.get i text).
Proof.
  intros Hr importNodes. rewrite Program_check_imports in Hr.
  fold importNodes in Hr. clearbody importNodes.
  destruct (check_imports_cases heap getText importNodes)
    as [[Hnil _] | (i & Hi & _ & _ & Heq)].
  { rewrite Hnil in Hr. by apply elem_of_nil in Hr. }
  rewrite Heq in Hr. apply list_elem_of_singleton in Hr as ->.
  destruct importNodes as [|firstImport rest]; [simpl in Hi; lia|].
  destruct (last (firstImport :: rest)) as [lastImport|] eqn:Hlast;
    [|by apply last_None in Hlast].
  exists firstImport, lastImport.
  eexists {| fix_range := (_, _); fix_text := _ |}.
  split; [done|]. split; [done|]. split.
  { unfold mismatch_report; cbn [report_fix].
    by apply make_fix_range. }
  split; [done|]. split; [done|]. intros text Htext. split.
  - intros j Hj. by apply replaceTextRange_before.
  - intros j Hj. by apply replaceTextRange_after.
Qed.

Lemma C9_fix_replaces_import_block_witness :
  let heap := heap_for file_mixed in
  let getText := getText_for file_mixed in
  let r := {| report_node := Some 1;
              report_message := "Imports are not sorted correctly.";
              report_fix :=
                Some {| fix_range := (0, 79);
                        fix_text :=
                          join_lines
                            [ "import z from 'longmodulename'"; "";
                              "import {B} from '@scope/pkg'"; "";
                              "import a from './x'" ] |} |} in
  r ∈ Program heap getText [0; 1; 2; 3] ∧
  ∃ firstImport lastImport f,
    head (importNodes_of heap [0; 1; 2; 3]) = Some firstImport ∧
    last (importNodes_of heap [0; 1; 2; 3]) = Some lastImport ∧
    report_fix r = Some f ∧
    fix_range f = (fst (range (heap firstImport)),
                   snd (range (heap lastImport))) ∧
    fix_text f =
    generateFixedCode heap getText
      (sortedImports heap getText (importNodes_of heap [0; 1; 2; 3])) ∧
    ∀ text, fst (fix_range f) ≤ String.length text →
      (∀ i, i < fst (range (heap firstImport)) →
            String.get i (replaceTextRange text f) = String.get i text) ∧
      (∀ i, snd (range (heap lastImport)) ≤ i →
            String.get (fst (fix_range f) + String.length (fix_text f)
                        + (i - snd (fix_range f)))
              (replaceTextRange text f)
            = String.get i text).
Proof.
  intros heap getText r.
  assert (r ∈ Program heap getText [0; 1; 2; 3]) as Hr by left.
  split; [exact Hr|].
  exact (C9_fix_replaces_import_block heap getText [0; 1; 2; 3] r Hr).
Defined.

(** ** Permutation *)

(** C10: when every statement of the input passes one of the five tests,
    the canonical order is a permutation of the input. *)
Theorem C10_canonical_order_is_permutation
    (heap : loc → Node) (getText : Node → string) (importNodes : list loc) :
  (∀ n, n ∈ importNodes → classified heap n) →
  sortedImports heap getText importNodes ≡ₚ importNodes.
Proof.
  intros Hall. rewrite sortedImports_perm.
  assert (Forall (λ n, is_Some (getGroupType heap n)) importNodes) as HF.
  { apply Forall_forall. intros n Hn. by apply classified_getGroupType, Hall. }
  clear Hall. induction HF as [|n l Hn Hl IH]; [done|].
  by rewrite filter_cons_True, IH.
Qed.

Lemma C10_canonical_order_is_permutation_witness :
  let heap := heap_for file_mixed in
  let getText := getText_for file_mixed in
  (∀ n, n ∈ [0; 1; 2] → classified heap n) ∧
  sortedImports heap getText [0; 1; 2] = [0; 2; 1] ∧
  sortedImports heap getText [0; 1; 2] ≡ₚ [0; 1; 2].
Proof.
  intros heap getText.
  assert (∀ n, n ∈ [0; 1; 2] → classified heap n) as Hall.
  { intros n. rewrite !elem_of_cons, elem_of_nil.
    intros [->|[->|[->|[]]]].
    - left. reflexivity.
    - do 3 right. left. reflexivity.
    - right. left. reflexivity. }
  split; [exact Hall|]. split; [reflexivity|].
  exact (C10_canonical_order_is_permutation heap getText [0; 1; 2] Hall).
Defined.

(** ** Worked examples *)

(** Third-party, relative, scoped: the scoped import moves in front of the
    relative one; the report is anchored at the relative import and the
    replacement has one empty line between the groups. *)
Example Program_file_mixed :
  Program (heap_for file_mixed) (getText_for file_mixed) [0; 1; 2] =
  [ {| report_node := Some 1;
       report_message := "Imports are not sorted correctly.";
       report_fix :=
         Some {| fix_range := (0, 79);
                 fix_text :=
                   join_lines
                     [ "import z from 'longmodulename'"; "";
                       "import {B} from '@scope/pkg'"; "";
                       "import a from './x'" ] |} |} ].
Proof. reflexivity. Qed.

(** Statements that are not import declarations are not looked at. *)
Example Program_ignores_other_statements :
  Program (heap_for file_sorted) (getText_for file_sorted) [0; 5; 1; 7] = [].
Proof. reflexivity. Qed.

(** Shorter texts first; the two texts of equal length stay as they were. *)
Example sortedImports_file_ties :
  sortedImports (heap_for file_ties) (getText_for file_ties) [0; 1; 2; 3] =
  [2; 0; 1; 3].
Proof. reflexivity. Qed.

(** [trim] works on both ends. *)
Example trim_both_ends :
  trim (LF +:+ "  import a from 'a'  " +:+ LF) = "import a from 'a'".
Proof. reflexivity. Qed.

(** * Further properties of the rule *)

(** ** The tests of [groupImports] and [getGroupType] *)

(** Two path tests that both pass contradict each other. *)
Ltac path_tests_clash :=
  exfalso;
  repeat match goal with
    | H : isThirdParty _ = true |- _ =>
        destruct (proj1 (isThirdParty_spec _) H) as (? & ? & ? & ?); clear H
    | H : isAtImport _ = true |- _ =>
        destruct (proj1 (isAtImport_spec _) H) as (? & ?); clear H
    | H : isSingleDotRelative _ = true |- _ =>
        destruct (proj1 (isSingleDotRelative_spec _) H) as (? & ? & ? & ?);
        clear H
    | H : isMultiDotRelative _ = true |- _ =>
        destruct (proj1 (isMultiDotRelative_spec _) H) as [(? & ?)|(? & ?)];
        clear H
    end;
  simplify_eq;
  match goal with
  | H : _ ∉ _ |- _ => solve [apply H; repeat constructor]
  end.

(** X1: the four path tests exclude each other: no path passes two of
    them, so the order in which the [if] chain asks them does not matter. *)
Theorem X1_path_tests_exclude_each_other (importPath : string) :
  length (filter (λ b : bool, b = true)
            [ isThirdParty importPath; isAtImport importPath;
              isSingleDotRelative importPath;
              isMultiDotRelative importPath ]) ≤ 1.
Proof.
  destruct (isThirdParty importPath) eqn:H0;
    destruct (isAtImport importPath) eqn:H1;
    destruct (isSingleDotRelative importPath) eqn:H2;
    destruct (isMultiDotRelative importPath) eqn:H3;
    try (vm_compute; lia); path_tests_clash.
Qed.

(** X2: the paths that pass none of the four path tests are the empty
    path, the paths that start with ['/'], the path ['.'], and the paths
    that start with ['..'] without a ['/'] right behind. *)
Theorem X2_paths_without_group (importPath : string) :
  (isThirdParty importPath = false ∧ isAtImport importPath = false ∧
   isSingleDotRelative importPath = false ∧
   isMultiDotRelative importPath = false) ↔
  (importPath = EmptyString ∨
   (∃ rest, importPath = String "/" rest) ∨
   importPath = "." ∨
   importPath = ".." ∨
   ∃ c rest, importPath = String "." (String "." (String c rest)) ∧
             c ≠ "/"%char).
Proof.
  split.
  - intros (H0 & H1 & H2 & H3).
    destruct importPath as [|c p]; [by left|]. right.
    destruct (decide (c = "/"%char)) as [->|Hslash]; [left; by eexists|].
    right.
    destruct (decide (c = "@"%char)) as [->|Hat]; [discriminate H1|].
    destruct (decide (c = "."%char)) as [->|Hdot].
    + destruct p as [|d p]; [by left|]. right.
      destruct (decide (d = "/"%char)) as [->|Hd]; [discriminate H3|].
      destruct (decide (d = "."%char)) as [->|Hd'].
      * destruct p as [|e p]; [by left|]. right.
        exists e, p. split; [done|]. intros ->. discriminate H3.
      * exfalso. apply not_true_iff_false in H2. apply H2.
        apply isSingleDotRelative_spec. exists d, p. split; [done|].
        rewrite !not_elem_of_cons. repeat split; try done. apply not_elem_of_nil.
    + exfalso. apply not_true_iff_false in H0. apply H0.
      apply isThirdParty_spec. exists c, p. split; [done|].
      rewrite !not_elem_of_cons. repeat split; try done. apply not_elem_of_nil.
  - intros [->|[(rest & ->)|[->|[->|(c & rest & -> & Hc)]]]];
      try by repeat split.
    repeat split. apply not_true_iff_false.
    intros [(r & [=])|(r & [= ->])]%isMultiDotRelative_spec. done.
Qed.

(** X3: the group type of a statement is decided by its path alone when
    the path passes one of the four path tests, whatever [importKind] is;
    group 4 is for the type-only imports whose path passes none of them,
    and [undefined] for the other imports whose path passes none. *)
Theorem X3_group_type_follows_the_path (heap : loc → Node) (node : loc) :
  let importPath := source_value (heap node) in
  let no_path_test :=
    isThirdParty importPath = false ∧ isAtImport importPath = false ∧
    isSingleDotRelative importPath = false ∧
    isMultiDotRelative importPath = false in
  (getGroupType heap node = Some 0 ↔ isThirdParty importPath = true) ∧
  (getGroupType heap node = Some 1 ↔ isAtImport importPath = true) ∧
  (getGroupType heap node = Some 2 ↔
   isSingleDotRelative importPath = true) ∧
  (getGroupType heap node = Some 3 ↔
   isMultiDotRelative importPath = true) ∧
  (getGroupType heap node = Some 4 ↔
   isTypeImport heap node = true ∧ no_path_test) ∧
  (getGroupType heap node = None ↔
   isTypeImport heap node = false ∧ no_path_test).
Proof.
  cbv zeta. unfold getGroupType.
  generalize (source_value (heap node)). intros importPath.
  destruct (isThirdParty importPath) eqn:H0;
    destruct (isAtImport importPath) eqn:H1;
    destruct (isSingleDotRelative importPath) eqn:H2;
    destruct (isMultiDotRelative importPath) eqn:H3;
    try path_tests_clash;
    destruct (isTypeImport heap node);
    repeat split; intros; try done; try discriminate;
    intuition discriminate.
Qed.

(** ** The groups *)

(** X4: when the [forEach] of [groupImports] is over there are five
    groups, and group [k] is the input with the statements of another
    group type left out, in the order of the input.  So the [if] chain of
    [groupImports] and the one of [getGroupType] agree. *)
Theorem X4_groups_are_the_input_by_group_type
    (heap : loc → Node) (importNodes : list loc) :
  length (groupImports_groups heap importNodes) = 5 ∧
  ∀ k, k < 5 →
    groupImports_groups heap importNodes !! k =
    Some (filter (λ n, getGroupType heap n = Some k) importNodes).
Proof.
  rewrite groupImports_groups_buckets. split; [done|].
  intros k Hk. by destruct k as [|[|[|[|[|k]]]]]; [..|lia].
Qed.

Lemma filter_nonempty_fmap {A : Type} (group : nat → list A) (ks : list nat) :
  filter (λ g, 0 < length g) (group <$> ks) =
  group <$> filter (λ k, group k ≠ []) ks.
Proof.
  induction ks as [|k ks IH]; [done|].
  rewrite fmap_cons, !filter_cons, IH.
  destruct (group k) eqn:Hk; repeat case_decide;
    simpl in *; try done; try lia.
  by rewrite Hk.
Qed.

(** The groups that [groupImports] returns, by group index. *)
Lemma groupImports_nonempty_buckets
    (heap : loc → Node) (importNodes : list loc) :
  groupImports heap importNodes =
  (λ k, bucket heap k importNodes)
    <$> filter (λ k, bucket heap k importNodes ≠ []) [0; 1; 2; 3; 4].
Proof.
  unfold groupImports. rewrite groupImports_groups_buckets.
  exact (filter_nonempty_fmap (λ k, bucket heap k importNodes)
           [0; 1; 2; 3; 4]).
Qed.

(** X5: [groupImports] returns the groups that are not empty, in the
    order of the group indices: no group it returns is empty, and there
    are at most five. *)
Theorem X5_groupImports_keeps_nonempty_groups
    (heap : loc → Node) (importNodes : list loc) :
  let group k := filter (λ n, getGroupType heap n = Some k) importNodes in
  groupImports heap importNodes =
  group <$> filter (λ k, group k ≠ []) [0; 1; 2; 3; 4] ∧
  (∀ g, g ∈ groupImports heap importNodes → g ≠ []) ∧
  length (groupImports heap importNodes) ≤ 5.
Proof.
  intros group.
  pose proof (groupImports_nonempty_buckets heap importNodes) as Heq.
  split; [done|]. split.
  - intros g. rewrite Heq. intros (k & -> & Hk)%list_elem_of_fmap.
    by apply list_elem_of_filter in Hk as [? _].
  - rewrite Heq, length_fmap.
    etrans; [apply length_filter|]. done.
Qed.

(** ** The canonical order as an order *)

Section SortedByKey.
Context {A K : Type} `{EqDecision K}.
Variable key : A → K.
Variable R : A → A → Prop.
Hypothesis R_key : ∀ x y, R x y → R y x → key x = key y.

(** In a sorted list the earlier element is below the later one. *)
Lemma StronglySorted_precedes (l : list A) (x y : A) :
  StronglySorted R l → precedes x y l → R x y.
Proof.
  intros Hl (i & j & Hij & Hi & Hj). revert i j Hij Hi Hj.
  induction Hl as [|z l Hl IH Hz]; intros i j Hij Hi Hj; [done|].
  destruct j as [|j]; [lia|]. simpl in Hj. destruct i as [|i]; simpl in Hi.
  - injection Hi as ->. rewrite Forall_forall in Hz.
    apply Hz, list_elem_of_lookup. eauto.
  - apply (IH i j); [lia | done | done].
Qed.

(** A sorted list is determined by its selections by key. *)
Lemma sorted_by_key_unique (l1 l2 : list A) :
  StronglySorted R l1 → StronglySorted R l2 →
  (∀ k, filter (λ x, key x = k) l1 = filter (λ x, key x = k) l2) →
  l1 = l2.
Proof.
  intros H1. revert l2.
  induction H1 as [|x l1 Hl1 IH Hx]; intros l2 H2 Heq.
  - destruct l2 as [|y l2]; [done|].
    specialize (Heq (key y)). by rewrite filter_cons_True in Heq.
  - destruct H2 as [|y l2 Hl2 Hy].
    { specialize (Heq (key x)). by rewrite filter_cons_True in Heq. }
    assert (x = y) as <-.
    { destruct (decide (key y = key x)) as [Hxy|Hxy].
      - specialize (Heq (key x)).
        rewrite !filter_cons_True in Heq by done. congruence.
      - assert (x ∈ y :: l2) as Hin.
        { apply (list_elem_of_filter (λ n, key n = key x)).
          rewrite <- Heq, filter_cons_True by done. left. }
        assert (y ∈ x :: l1) as Hin'.
        { apply (list_elem_of_filter (λ n, key n = key y)).
          rewrite Heq, filter_cons_True by done. left. }
        apply elem_of_cons in Hin as [->|Hin]; [done|].
        apply elem_of_cons in Hin' as [->|Hin']; [done|].
        rewrite Forall_forall in Hx, Hy.
        destruct Hxy. symmetry. apply R_key; auto. }
    f_equal. apply IH; [done|]. intros k. specialize (Heq k).
    rewrite !filter_cons in Heq. case_decide; congruence.
Qed.
End SortedByKey.

Lemma filter_nothing {A : Type} (P : A → Prop) `{!∀ x, Decision (P x)}
    (l : list A) :
  (∀ x, x ∈ l → ¬ P x) → filter P l = [].
Proof.
  induction l as [|x l IH]; intros Hl; [done|].
  rewrite filter_cons_False by (apply Hl; left).
  apply IH. intros y Hy. apply Hl. by right.
Qed.

Lemma filter_everything {A : Type} (P : A → Prop) `{!∀ x, Decision (P x)}
    (l : list A) :
  (∀ x, x ∈ l → P x) → filter P l = l.
Proof.
  induction l as [|x l IH]; intros Hl; [done|].
  rewrite filter_cons_True by (apply Hl; left).
  f_equal. apply IH. intros y Hy. apply Hl. by right.
Qed.

Lemma filter_swap {A : Type} (P Q : A → Prop)
    `{!∀ x, Decision (P x)} `{!∀ x, Decision (Q x)} (l : list A) :
  filter P (filter Q l) = filter Q (filter P l).
Proof.
  rewrite !list_filter_filter. apply list_filter_iff. intros x. tauto.
Qed.

Section CanonicalOrder.
Variable heap : loc → Node.
Variable getText : Node → string.

Local Abbreviation sort := (Array_sort (byLength heap getText)).
Local Abbreviation canonical := (sortedImports heap getText).
Local Abbreviation below := (canonical_le heap getText).
Local Abbreviation key := (sort_key heap getText).

Lemma canonical_le_key (a b : loc) : below a b → below b a → key a = key b.
Proof.
  intros (j & k & Hj & Hk & H1) (k' & j' & Hk' & Hj' & H2).
  unfold sort_key. rewrite Hj, Hk in *. simplify_eq.
  f_equal; [f_equal|]; lia.
Qed.

Lemma canonical_le_strict (a b : loc) (j k : nat) :
  getGroupType heap a = Some j → getGroupType heap b = Some k →
  j < k ∨ (j = k ∧ textLength heap getText a < textLength heap getText b) →
  below a b ∧ ¬ below b a.
Proof.
  intros Hj Hk Hlt. split.
  - exists j, k. split; [done|]. split; [done|]. lia.
  - intros (k' & j' & Hk' & Hj' & H2). simplify_eq. lia.
Qed.

(** A sorted group is in canonical order. *)
Lemma ascending_canonical_le (k : nat) (s : list loc) :
  ascending heap getText s →
  Forall (λ n, getGroupType heap n = Some k) s →
  StronglySorted below s.
Proof.
  unfold ascending. induction 1 as [|x s Hs IH Hx]; intros Hall.
  - constructor.
  - apply Forall_cons in Hall as [Hk Hall]. constructor; [by apply IH|].
    rewrite Forall_forall in Hx, Hall |- *. intros y Hy.
    exists k, k. split; [done|]. split; [by apply Hall|].
    right. split; [done|]. by apply Hx.
Qed.

Lemma sorted_bucket_group (k : nat) (l : list loc) :
  Forall (λ n, getGroupType heap n = Some k) (sort (bucket heap k l)).
Proof.
  apply Array_sort_Forall, Forall_forall. intros n Hn.
  by apply elem_of_bucket in Hn as [? _].
Qed.

(** The canonical order is sorted by group index, then by text length. *)
Lemma sortedImports_canonical_le (l : list loc) :
  StronglySorted below (canonical l).
Proof.
  rewrite sortedImports_buckets.
  pose proof (sorted_bucket_group 0 l) as H0.
  pose proof (sorted_bucket_group 1 l) as H1.
  pose proof (sorted_bucket_group 2 l) as H2.
  pose proof (sorted_bucket_group 3 l) as H3.
  pose proof (sorted_bucket_group 4 l) as H4.
  rewrite Forall_forall in H0, H1, H2, H3, H4.
  repeat (apply StronglySorted_app; split; [|split]);
    try (eapply ascending_canonical_le;
         [apply Array_sort_ascending | apply sorted_bucket_group]);
    intros x y Hx Hy; rewrite ?elem_of_app in Hy; destruct_or?;
    (eapply canonical_le_strict; [eauto | eauto | lia]).
Qed.

(** The selection of a key in the canonical order is its selection among
    the classified statements of the input. *)
Lemma sortedImports_key_filter (l : list loc) (k : option nat * nat) :
  filter (λ n, key n = k) (canonical l) =
  filter (λ n, key n = k)
    (filter (λ n, is_Some (getGroupType heap n)) l).
Proof.
  destruct k as [[g|] m].
  - destruct (decide (g < 5)) as [Hg|Hg].
    + trans (filter (λ n, textLength heap getText n = m ∧
                          getGroupType heap n = Some g) (canonical l)).
      { apply list_filter_iff. intros n. unfold sort_key.
        split; [by intros [= -> ->] | by intros [-> ->]]. }
      rewrite sortedImports_stable by done. rewrite list_filter_filter.
      apply list_filter_iff. intros n. unfold sort_key. split.
      * intros [-> ->]. split; [done | by eexists].
      * intros [[= -> ->] _]. done.
    + rewrite !filter_nothing; [done | |];
        intros n _ Hn; unfold sort_key in Hn; injection Hn as Hn _;
        apply getGroupType_lt_5 in Hn; lia.
  - rewrite !filter_nothing; [done | |].
    + intros n [[? Hn] _]%list_elem_of_filter Hn'.
      unfold sort_key in Hn'. injection Hn' as Hn' _. congruence.
    + intros n [_ [? Hn]]%elem_of_sortedImports Hn'.
      unfold sort_key in Hn'. injection Hn' as Hn' _. congruence.
Qed.

(** The canonical order depends on the input only through the order of
    the statements of each group type and text length. *)
Lemma sortedImports_by_key (l1 l2 : list loc) :
  (∀ k, filter (λ n, key n = k) l1 = filter (λ n, key n = k) l2) →
  canonical l1 = canonical l2.
Proof.
  intros Heq.
  apply (sorted_by_key_unique key below canonical_le_key);
    [apply sortedImports_canonical_le..|].
  intros k. rewrite !sortedImports_key_filter.
  rewrite !(filter_swap (λ n, key n = k)). by rewrite Heq.
Qed.

(** A list of classified statements in canonical order is its own
    canonical order. *)
Lemma sortedImports_fixed (l : list loc) :
  (∀ n, n ∈ l → classified heap n) → StronglySorted below l →
  canonical l = l.
Proof.
  intros Hall Hl.
  apply (sorted_by_key_unique key below canonical_le_key);
    [apply sortedImports_canonical_le | done |].
  intros k. rewrite sortedImports_key_filter. f_equal.
  apply filter_everything. intros n Hn.
  by apply classified_getGroupType, Hall.
Qed.

Lemma check_imports_nil_sorted (l : list loc) :
  check_imports heap getText l = [] ↔
  (∀ n, n ∈ l → classified heap n) ∧ StronglySorted below l.
Proof.
  rewrite check_imports_nil_iff. split.
  - intros Heq. split.
    + intros n Hn. rewrite <- Heq in Hn.
      apply elem_of_sortedImports in Hn as [_ Hn].
      by apply classified_getGroupType.
    + rewrite <- Heq. apply sortedImports_canonical_le.
  - intros [Hall Hl]. by apply sortedImports_fixed.
Qed.

(** Two statements of the input with keys in strict order are in that
    order in the canonical list. *)
Lemma sortedImports_strictly_before (l : list loc) (a b : loc) (j k : nat) :
  a ∈ l → b ∈ l →
  getGroupType heap a = Some j → getGroupType heap b = Some k →
  j < k ∨ (j = k ∧ textLength heap getText a < textLength heap getText b) →
  precedes a b (canonical l) ∧ ¬ precedes b a (canonical l).
Proof.
  intros Ha Hb Hj Hk Hlt.
  destruct (canonical_le_strict a b j k Hj Hk Hlt) as [_ Hnot].
  assert (¬ precedes b a (canonical l)) as Hba.
  { intros Hba. apply Hnot.
    eapply StronglySorted_precedes;
      [apply sortedImports_canonical_le | exact Hba]. }
  split; [|done].
  destruct (precedes_total a b (canonical l)) as [|?]; [..|done|done].
  - apply elem_of_sortedImports. split; [done | by eexists].
  - apply elem_of_sortedImports. split; [done | by eexists].
  - intros ->. rewrite Hj in Hk. injection Hk as ->. lia.
Qed.
End CanonicalOrder.

(** X6: the canonical order is sorted by group index and, within a
    group, by text length: of two of its statements the earlier one has a
    lower group index, or the same group index and a text that is not
    longer. *)
Theorem X6_canonical_order_is_sorted
    (heap : loc → Node) (getText : Node → string) (importNodes : list loc) :
  StronglySorted (canonical_le heap getText)
    (sortedImports heap getText importNodes) ∧
  ∀ a b, precedes a b (sortedImports heap getText importNodes) →
    ∃ j k, getGroupType heap a = Some j ∧ getGroupType heap b = Some k ∧
           (j < k ∨ (j = k ∧ textLength heap getText a
                             ≤ textLength heap getText b)).
Proof.
  pose proof (sortedImports_canonical_le heap getText importNodes) as Hs.
  split; [done|]. intros a b Hab.
  by apply (StronglySorted_precedes _ _ a b Hs).
Qed.

(** X7: the rule reports nothing exactly when every import statement
    passes one of the five tests and the import statements are already
    sorted by group index and, within a group, by text length. *)
Theorem X7_no_report_iff_classified_and_sorted
    (heap : loc → Node) (getText : Node → string) (body : list loc) :
  Program heap getText body = [] ↔
  (∀ n, n ∈ importNodes_of heap body → classified heap n) ∧
  StronglySorted (canonical_le heap getText) (importNodes_of heap body).
Proof. rewrite Program_check_imports. apply check_imports_nil_sorted. Qed.

(** X8: a file with an import statement that passes none of the five
    tests always gets a report, in whatever order its imports are, and the
    replacement is generated from fewer statements than the file
    imports. *)
Theorem X8_unclassified_import_is_always_reported
    (heap : loc → Node) (getText : Node → string) (body : list loc)
    (node : loc) :
  node ∈ importNodes_of heap body →
  ¬ classified heap node →
  (∃ r, Program heap getText body = [r]) ∧
  length (sortedImports heap getText (importNodes_of heap body))
  < length (importNodes_of heap body).
Proof.
  intros Hin Hnode. rewrite Program_check_imports. split.
  - destruct (check_imports_cases heap getText (importNodes_of heap body))
      as [[Hnil _] | (i & _ & _ & _ & Heq)]; [|by eexists].
    apply check_imports_nil_sorted in Hnil as [Hall _].
    destruct Hnode. by apply Hall.
  - rewrite sortedImports_perm.
    apply (length_filter_lt _ _ node); [done|].
    by rewrite <- classified_getGroupType.
Qed.

Lemma X8_unclassified_import_is_always_reported_witness :
  let heap := heap_for file_with_index in
  let getText := getText_for file_with_index in
  (1 : loc) ∈ importNodes_of heap [0; 1; 2] ∧
  ¬ classified heap 1 ∧
  (∃ r, Program heap getText [0; 1; 2] = [r]) ∧
  length (sortedImports heap getText (importNodes_of heap [0; 1; 2]))
  < length (importNodes_of heap [0; 1; 2]).
Proof.
  intros heap getText.
  assert ((1 : loc) ∈ importNodes_of heap [0; 1; 2]) as Hin
    by (right; left).
  assert (¬ classified heap 1) as Hnode
    by (intros [H|[H|[H|[H|H]]]]; discriminate H).
  split; [exact Hin|]. split; [exact Hnode|].
  exact (X8_unclassified_import_is_always_reported heap getText [0; 1; 2] 1
           Hin Hnode).
Defined.

(** X9: category precedence.  Of two statements of the input, the one
    with the lower group index comes first in the canonical order,
    whatever the lengths of their texts. *)
Theorem X9_lower_group_comes_first
    (heap : loc → Node) (getText : Node → string)
    (importNodes : list loc) (a b : loc) (j k : nat) :
  a ∈ importNodes → b ∈ importNodes →
  getGroupType heap a = Some j → getGroupType heap b = Some k →
  j < k →
  precedes a b (sortedImports heap getText importNodes) ∧
  ¬ precedes b a (sortedImports heap getText importNodes).
Proof.
  intros Ha Hb Hj Hk Hjk.
  apply (sortedImports_strictly_before heap getText _ a b j k); auto.
Qed.

Lemma X9_lower_group_comes_first_witness :
  let heap := heap_for file_mixed in
  let getText := getText_for file_mixed in
  (2 : loc) ∈ [0; 1; 2] ∧ (1 : loc) ∈ [0; 1; 2] ∧
  getGroupType heap 2 = Some 1 ∧ getGroupType heap 1 = Some 3 ∧
  1 < 3 ∧
  textLength heap getText 1 < textLength heap getText 2 ∧
  precedes 2 1 (sortedImports heap getText [0; 1; 2]) ∧
  ¬ precedes 1 2 (sortedImports heap getText [0; 1; 2]).
Proof.
  intros heap getText.
  assert ((2 : loc) ∈ [0; 1; 2]) as Ha by (right; right; left).
  assert ((1 : loc) ∈ [0; 1; 2]) as Hb by (right; left).
  assert (1 < 3) as Hlt by lia.
  split; [exact Ha|]. split; [exact Hb|].
  split; [reflexivity|]. split; [reflexivity|]. split; [exact Hlt|].
  split; [vm_compute; lia|].
  exact (X9_lower_group_comes_first heap getText [0; 1; 2] 2 1 1 3
           Ha Hb eq_refl eq_refl Hlt).
Defined.

(** X10: length ordering within a group.  Of two statements of the input
    with the same group index, the one with the shorter text comes first
    in the canonical order. *)
Theorem X10_shorter_text_comes_first
    (heap : loc → Node) (getText : Node → string)
    (importNodes : list loc) (a b : loc) (k : nat) :
  a ∈ importNodes → b ∈ importNodes →
  getGroupType heap a = Some k → getGroupType heap b = Some k →
  textLength heap getText a < textLength heap getText b →
  precedes a b (sortedImports heap getText importNodes) ∧
  ¬ precedes b a (sortedImports heap getText importNodes).
Proof.
  intros Ha Hb Hj Hk Hlen.
  apply (sortedImports_strictly_before heap getText _ a b k k); auto.
Qed.

Lemma X10_shorter_text_comes_first_witness :
  let heap := heap_for file_ties in
  let getText := getText_for file_ties in
  (2 : loc) ∈ [0; 1; 2; 3] ∧ (0 : loc) ∈ [0; 1; 2; 3] ∧
  getGroupType heap 2 = Some 0 ∧ getGroupType heap 0 = Some 0 ∧
  textLength heap getText 2 < textLength heap getText 0 ∧
  precedes 2 0 (sortedImports heap getText [0; 1; 2; 3]) ∧
  ¬ precedes 0 2 (sortedImports heap getText [0; 1; 2; 3]).
Proof.
  intros heap getText.
  assert ((2 : loc) ∈ [0; 1; 2; 3]) as Ha by (right; right; left).
  assert ((0 : loc) ∈ [0; 1; 2; 3]) as Hb by left.
  assert (textLength heap getText 2 < textLength heap getText 0) as Hlen
    by (vm_compute; lia).
  split; [exact Ha|]. split; [exact Hb|].
  split; [reflexivity|]. split; [reflexivity|]. split; [exact Hlen|].
  exact (X10_shorter_text_comes_first heap getText [0; 1; 2; 3] 2 0 0
           Ha Hb eq_refl eq_refl Hlen).
Defined.

(** X11: exchanging two neighbouring import statements that differ in
    group type or in text length changes neither the canonical order nor
    the replacement text. *)
Theorem X11_swapping_neighbours_keeps_the_fix
    (heap : loc → Node) (getText : Node → string)
    (before after : list loc) (a b : loc) :
  sort_key heap getText a ≠ sort_key heap getText b →
  sortedImports heap getText (before ++ a :: b :: after) =
  sortedImports heap getText (before ++ b :: a :: after) ∧
  generateFixedCode heap getText
    (sortedImports heap getText (before ++ a :: b :: after)) =
  generateFixedCode heap getText
    (sortedImports heap getText (before ++ b :: a :: after)).
Proof.
  intros Hab.
  assert (sortedImports heap getText (before ++ a :: b :: after) =
          sortedImports heap getText (before ++ b :: a :: after)) as Heq.
  { apply sortedImports_by_key. intros k.
    rewrite !filter_app, !filter_cons.
    repeat case_decide; try done. congruence. }
  by rewrite Heq.
Qed.

Lemma X11_swapping_neighbours_keeps_the_fix_witness :
  let heap := heap_for file_ties in
  let getText := getText_for file_ties in
  sort_key heap getText 1 ≠ sort_key heap getText 2 ∧
  sortedImports heap getText ([0] ++ 1 :: 2 :: [3]) =
  sortedImports heap getText ([0] ++ 2 :: 1 :: [3]) ∧
  generateFixedCode heap getText
    (sortedImports heap getText ([0] ++ 1 :: 2 :: [3])) =
  generateFixedCode heap getText
    (sortedImports heap getText ([0] ++ 2 :: 1 :: [3])).
Proof.
  intros heap getText.
  assert (sort_key heap getText 1 ≠ sort_key heap getText 2) as Hab
    by (vm_compute; discriminate).
  split; [exact Hab|].
  exact (X11_swapping_neighbours_keeps_the_fix heap getText [0] [3] 1 2 Hab).
Defined.

(** ** What is reported, and what the fix replaces *)

(** X12: when every import statement passes one of the five tests, the
    report is never anchored at the last import statement: if all
    statements in front of the last one are in place, so is the last. *)
Theorem X12_report_is_never_at_the_last_import
    (heap : loc → Node) (getText : Node → string) (body : list loc)
    (r : Report) :
  (∀ n, n ∈ importNodes_of heap body → classified heap n) →
  r ∈ Program heap getText body →
  ∃ i, S i < length (importNodes_of heap body) ∧
       report_node r = importNodes_of heap body !! i.
Proof.
  intros Hall Hr. rewrite Program_check_imports in Hr.
  set (imp := importNodes_of heap body) in *.
  destruct (check_imports_cases heap getText imp)
    as [[Hnil _] | (i & Hi & Hne & Hlt & Heq)].
  { rewrite Hnil in Hr. by apply elem_of_nil in Hr. }
  rewrite Heq in Hr. apply list_elem_of_singleton in Hr as ->.
  exists i. split; [|done].
  destruct (decide (S i < length imp)) as [|Hlast]; [done|].
  exfalso. apply Hne.
  set (srt := sortedImports heap getText imp) in *.
  assert (srt ≡ₚ imp) as Hperm.
  { unfold srt. rewrite sortedImports_perm, filter_everything; [done|].
    intros n Hn. by apply classified_getGroupType, Hall. }
  assert (length srt = length imp) as Hlen by by rewrite Hperm.
  destruct (lookup_lt_is_Some_2 imp i Hi) as [x Hx].
  destruct (lookup_lt_is_Some_2 srt i) as [y Hy]; [lia|].
  assert (take i srt = take i imp) as Htake.
  { apply list_eq. intros j. rewrite !lookup_take.
    case_decide; [|done]. symmetry. by apply Hlt. }
  pose proof (take_drop_middle imp i x Hx) as Himp.
  pose proof (take_drop_middle srt i y Hy) as Hsrt.
  rewrite drop_ge in Himp by lia. rewrite drop_ge in Hsrt by lia.
  rewrite <- Himp, <- Hsrt, Htake in Hperm.
  apply Permutation_app_inv_l, Permutation_singleton_inj in Hperm.
  congruence.
Qed.

Lemma X12_report_is_never_at_the_last_import_witness :
  let heap := heap_for file_mixed in
  let getText := getText_for file_mixed in
  let r := {| report_node := Some 1;
              report_message := "Imports are not sorted correctly.";
              report_fix :=
                make_fix heap getText [0; 1; 2]
                  (sortedImports heap getText [0; 1; 2]) |} in
  (∀ n, n ∈ importNodes_of heap [0; 1; 2] → classified heap n) ∧
  r ∈ Program heap getText [0; 1; 2] ∧
  ∃ i, S i < length (importNodes_of heap [0; 1; 2]) ∧
       report_node r = importNodes_of heap [0; 1; 2] !! i.
Proof.
  intros heap getText r.
  assert (∀ n, n ∈ importNodes_of heap [0; 1; 2] → classified heap n)
    as Hall.
  { intros n. change (importNodes_of heap [0; 1; 2]) with [0; 1; 2].
    rewrite !elem_of_cons, elem_of_nil.
    intros [->|[->|[->|[]]]].
    - left. reflexivity.
    - do 3 right. left. reflexivity.
    - right. left. reflexivity. }
  assert (r ∈ Program heap getText [0; 1; 2]) as Hr by left.
  split; [exact Hall|]. split; [exact Hr|].
  exact (X12_report_is_never_at_the_last_import heap getText [0; 1; 2] r
           Hall Hr).
Defined.

(** X13: when no import statement of the file passes any of the five
    tests, the rule reports the first import statement, and the fix
    replaces the whole import block by the empty text. *)
Theorem X13_unclassified_block_is_emptied
    (heap : loc → Node) (getText : Node → string) (body : list loc)
    (firstImport lastImport : loc) :
  head (importNodes_of heap body) = Some firstImport →
  last (importNodes_of heap body) = Some lastImport →
  (∀ n, n ∈ importNodes_of heap body → ¬ classified heap n) →
  Program heap getText body =
  [ {| report_node := Some firstImport;
       report_message := "Imports are not sorted correctly.";
       report_fix :=
         Some {| fix_range := (fst (range (heap firstImport)),
                               snd (range (heap lastImport)));
                 fix_text := EmptyString |} |} ].
Proof.
  intros Hhead Hlast Hall. rewrite Program_check_imports.
  set (imp := importNodes_of heap body) in *.
  assert (sortedImports heap getText imp = []) as Hsorted.
  { apply Permutation_nil_r. rewrite sortedImports_perm.
    rewrite filter_nothing; [done|]. intros n Hn.
    rewrite <- classified_getGroupType. by apply Hall. }
  unfold check_imports. rewrite Hsorted.
  destruct imp as [|n imp']; [done|]. injection Hhead as ->.
  cbn [length Nat.eqb seq compare_loop]. rewrite bool_decide_eq_true_2 by done.
  by rewrite (make_fix_range heap getText _ _ firstImport lastImport).
Qed.

Lemma X13_unclassified_block_is_emptied_witness :
  let heap := heap_for file_unclassified in
  let getText := getText_for file_unclassified in
  head (importNodes_of heap [0; 1]) = Some 0 ∧
  last (importNodes_of heap [0; 1]) = Some 1 ∧
  (∀ n, n ∈ importNodes_of heap [0; 1] → ¬ classified heap n) ∧
  Program heap getText [0; 1] =
  [ {| report_node := Some 0;
       report_message := "Imports are not sorted correctly.";
       report_fix :=
         Some {| fix_range := (fst (range (heap 0)), snd (range (heap 1)));
                 fix_text := EmptyString |} |} ].
Proof.
  intros heap getText.
  assert (∀ n, n ∈ importNodes_of heap [0; 1] → ¬ classified heap n)
    as Hall.
  { intros n. change (importNodes_of heap [0; 1]) with [0; 1].
    rewrite !elem_of_cons, elem_of_nil.
    intros [->|[->|[]]] [H|[H|[H|[H|H]]]]; discriminate H. }
  split; [reflexivity|]. split; [reflexivity|]. split; [exact Hall|].
  exact (X13_unclassified_block_is_emptied heap getText [0; 1] 0 1
           eq_refl eq_refl Hall).
Defined.

(** X14: every statement of the body that stands between two import
    statements lies inside the range that the fix replaces, also when it
    is not an import statement: the replacement, which holds import
    statements only, takes its place. *)
Theorem X14_fix_range_covers_statements_between_imports
    (heap : loc → Node) (getText : Node → string)
    (before after : list loc) (x : loc) (r : Report) :
  StronglySorted (range_before heap) (before ++ x :: after) →
  (∀ n, n ∈ before ++ x :: after →
        fst (range (heap n)) ≤ snd (range (heap n))) →
  (∃ a, a ∈ before ∧ type (heap a) = "ImportDeclaration") →
  (∃ b, b ∈ after ∧ type (heap b) = "ImportDeclaration") →
  r ∈ Program heap getText (before ++ x :: after) →
  ∃ f, report_fix r = Some f ∧
       fst (fix_range f) ≤ fst (range (heap x)) ∧
       snd (range (heap x)) ≤ snd (fix_range f).
Proof.
  intros Hsorted Hwf (a & Ha & Hta) (b & Hb & Htb) Hr.
  rewrite Program_check_imports in Hr.
  set (imp := importNodes_of heap (before ++ x :: after)) in *.
  assert (∃ firstImport, head imp = Some firstImport ∧ firstImport ∈ before)
    as (firstImport & Hhead & Hfirst).
  { unfold imp, importNodes_of. rewrite filter_app, head_app.
    destruct (head (filter _ before)) as [n|] eqn:Hn.
    - exists n. split; [done|].
      apply head_Some_elem_of, list_elem_of_filter in Hn. tauto.
    - apply head_None in Hn.
      by destruct (filter_nil_not_elem_of
                     (λ n, type (heap n) = "ImportDeclaration")
                     before a Hn Hta). }
  assert (∃ lastImport, last imp = Some lastImport ∧ lastImport ∈ after)
    as (lastImport & Hlast & Hlast_in).
  { unfold imp, importNodes_of.
    rewrite filter_app, (filter_cons _ x), last_app.
    assert (∃ n, last (filter (λ n, type (heap n) = "ImportDeclaration")
                         after) = Some n ∧ n ∈ after) as (n & Hn & Hin).
    { destruct (last (filter _ after)) as [n|] eqn:Hn.
      - exists n. split; [done|].
        apply last_Some_elem_of, list_elem_of_filter in Hn. tauto.
      - apply last_None in Hn.
        by destruct (filter_nil_not_elem_of
                       (λ n, type (heap n) = "ImportDeclaration")
                       after b Hn Htb). }
    exists n. split; [|done].
    case_decide; [rewrite last_cons|]; by rewrite Hn. }
  destruct (check_imports_cases heap getText imp)
    as [[Hnil _] | (i & _ & _ & _ & Heq)].
  { rewrite Hnil in Hr. by apply elem_of_nil in Hr. }
  rewrite Heq in Hr. apply list_elem_of_singleton in Hr as ->.
  eexists. split.
  { unfold mismatch_report; cbn [report_fix].
    by apply (make_fix_range heap getText _ _ firstImport lastImport). }
  cbn [fix_range fst snd].
  assert (range_before heap firstImport x) as Hfx.
  { apply (StronglySorted_app_1_elem_of _ before (x :: after));
      [done | done | left]. }
  assert (range_before heap x lastImport) as Hxl.
  { apply StronglySorted_app_1_r, StronglySorted_cons in Hsorted as [Hx _].
    rewrite Forall_forall in Hx. by apply Hx. }
  unfold range_before in *.
  assert (firstImport ∈ before ++ x :: after) as H1
    by (apply elem_of_app; by left).
  assert (lastImport ∈ before ++ x :: after) as H2
    by (apply elem_of_app; right; by right).
  apply Hwf in H1, H2. lia.
Qed.

Lemma X14_fix_range_covers_statements_between_imports_witness :
  let heap := heap_interleaved in
  let getText := slice_text text_interleaved in
  let r := {| report_node := Some 0;
              report_message := "Imports are not sorted correctly.";
              report_fix :=
                Some {| fix_range := (0, 45);
                        fix_text :=
                          join_lines
                            ["import c from 'c'";
                             "import bb from 'bb'"] |} |} in
  StronglySorted (range_before heap) ([0] ++ 1 :: [2]) ∧
  (∀ n, n ∈ [0] ++ 1 :: [2] →
        fst (range (heap n)) ≤ snd (range (heap n))) ∧
  (∃ a, a ∈ [0] ∧ type (heap a) = "ImportDeclaration") ∧
  (∃ b, b ∈ [2] ∧ type (heap b) = "ImportDeclaration") ∧
  type (heap 1) = "ExpressionStatement" ∧
  r ∈ Program heap getText ([0] ++ 1 :: [2]) ∧
  ∃ f, report_fix r = Some f ∧
       fst (fix_range f) ≤ fst (range (heap 1)) ∧
       snd (range (heap 1)) ≤ snd (fix_range f).
Proof.
  intros heap getText r.
  assert (StronglySorted (range_before heap) ([0] ++ 1 :: [2])) as Hs.
  { repeat constructor; unfold range_before; vm_compute; lia. }
  assert (∀ n, n ∈ [0] ++ 1 :: [2] →
               fst (range (heap n)) ≤ snd (range (heap n))) as Hwf.
  { intros n. cbn [app]. rewrite !elem_of_cons, elem_of_nil.
    intros [->|[->|[->|[]]]]; vm_compute; lia. }
  assert (∃ a, a ∈ [0] ∧ type (heap a) = "ImportDeclaration") as Ha
    by (exists 0; split; [left | reflexivity]).
  assert (∃ b, b ∈ [2] ∧ type (heap b) = "ImportDeclaration") as Hb
    by (exists 2; split; [left | reflexivity]).
  assert (r ∈ Program heap getText ([0] ++ 1 :: [2])) as Hr by left.
  split; [exact Hs|]. split; [exact Hwf|]. split; [exact Ha|].
  split; [exact Hb|]. split; [reflexivity|]. split; [exact Hr|].
  exact (X14_fix_range_covers_statements_between_imports heap getText
           [0] [2] 1 r Hs Hwf Ha Hb Hr).
Defined.

(** ** The replacement text, group by group *)

Lemma StronglySorted_filter {A : Type} (R : A → A → Prop) (P : A → Prop)
    `{!∀ x, Decision (P x)} (l : list A) :
  StronglySorted R l → StronglySorted R (filter P l).
Proof.
  induction 1 as [|x l Hl IH Hx]; [constructor|].
  rewrite filter_cons. case_decide; [|done]. constructor; [done|].
  rewrite Forall_forall in Hx |- *.
  intros y [_ Hy]%list_elem_of_filter. by apply Hx.
Qed.

Section Blocks.
Variable heap : loc → Node.
Variable getText : Node → string.

Local Abbreviation sort := (Array_sort (byLength heap getText)).
Local Abbreviation text := (λ n, getText (heap n)).
Local Abbreviation lines := (fixed_lines heap getText).

(** The lines of a run of statements of one group type, followed by a
    statement of another group type, if any. *)
Lemma fixed_lines_uniform_app (k : nat) (run rest : list loc) :
  run ≠ [] →
  Forall (λ n, getGroupType heap n = Some k) run →
  (∀ y, head rest = Some y → getGroupType heap y ≠ Some k) →
  lines (run ++ rest) =
  (text <$> run) ++
  match rest with [] => [] | _ :: _ => EmptyString :: lines rest end.
Proof.
  intros Hne Hrun Hrest. induction Hrun as [|a run Ha Hrun IH]; [done|].
  destruct run as [|a' run].
  - simpl. destruct rest as [|y rest]; [done|].
    rewrite decide_False; [done|].
    rewrite Ha. intros Heq. by apply (Hrest y).
  - change ((a :: a' :: run) ++ rest) with (a :: (a' :: run) ++ rest).
    rewrite fixed_lines_cons.
    change ((a' :: run) ++ rest) with (a' :: run ++ rest) at 1.
    cbv beta iota. apply Forall_cons in Hrun as Hrun'.
    destruct Hrun' as [Ha' _].
    rewrite decide_True by congruence.
    rewrite IH by done. done.
Qed.

Lemma fixed_lines_sorted_buckets (l : list loc) (ks : list nat) :
  StronglySorted lt ks →
  (∀ k, k ∈ ks → bucket heap k l ≠ []) →
  lines (concat ((λ k, sort (bucket heap k l)) <$> ks)) =
  separated ((λ k, text <$> sort (bucket heap k l)) <$> ks).
Proof.
  induction 1 as [|k ks Hks IH Hk]; intros Hne; [done|].
  rewrite !fmap_cons. cbn [concat].
  assert (sort (bucket heap k l) ≠ []) as Hk_ne.
  { intros Heq. apply (Hne k); [left|].
    apply (f_equal length) in Heq. rewrite Array_sort_length in Heq.
    by destruct (bucket heap k l). }
  rewrite (fixed_lines_uniform_app k).
  - rewrite IH by (intros k' Hk'; apply Hne; by right).
    destruct ks as [|k' ks]; [simpl; by rewrite app_nil_r|].
    rewrite !fmap_cons. cbn [concat].
    assert (sort (bucket heap k' l) ≠ []) as Hk'_ne.
    { intros Heq. apply (Hne k'); [right; left|].
      apply (f_equal length) in Heq. rewrite Array_sort_length in Heq.
      by destruct (bucket heap k' l). }
    destruct (sort (bucket heap k' l) ++ _) eqn:Hrest.
    + by apply app_nil in Hrest as [? _].
    + done.
  - done.
  - apply sorted_bucket_group.
  - intros y Hy%head_Some_elem_of.
    apply list_elem_of_In, in_concat in Hy as (s & Hs & Hy).
    apply list_elem_of_In in Hs, Hy.
    apply list_elem_of_fmap in Hs as (k' & -> & Hk').
    pose proof (sorted_bucket_group heap getText k' l) as Hall.
    rewrite Forall_forall in Hall, Hk. rewrite (Hall y Hy).
    intros [= ->]. specialize (Hk _ Hk'). lia.
Qed.

(** The lines of the replacement are the texts of the sorted groups, one
    empty line between two groups. *)
Lemma fixed_lines_sortedImports (l : list loc) :
  lines (sortedImports heap getText l) =
  separated ((λ group, text <$> sort group) <$> groupImports heap l).
Proof.
  unfold sortedImports. rewrite foldl_append_sorted. cbn [app].
  rewrite groupImports_nonempty_buckets.
  rewrite <- !list_fmap_compose.
  apply fixed_lines_sorted_buckets.
  - apply StronglySorted_filter. repeat constructor; lia.
  - by intros k [? _]%list_elem_of_filter.
Qed.
End Blocks.

(** X15: the text generated for the canonical order is, before the trim,
    the lines of the groups that [groupImports] returns, each group
    sorted, with a line break after every line and exactly one empty line
    between two consecutive groups. *)
Theorem X15_replacement_is_the_groups_separated_by_empty_lines
    (heap : loc → Node) (getText : Node → string) (importNodes : list loc) :
  let block group :=
    (λ n, getText (heap n)) <$> Array_sort (byLength heap getText) group in
  let blocks := block <$> groupImports heap importNodes in
  generateFixedCode_code heap getText
    (sortedImports heap getText importNodes) = unlines (separated blocks) ∧
  generateFixedCode heap getText
    (sortedImports heap getText importNodes) =
  trim (unlines (separated blocks)).
Proof.
  intros block blocks.
  assert (generateFixedCode_code heap getText
            (sortedImports heap getText importNodes) =
          unlines (separated blocks)) as Hcode.
  { rewrite generateFixedCode_code_lines.
    by rewrite fixed_lines_sortedImports. }
  split; [done|]. unfold generateFixedCode. by rewrite Hcode.
Qed.

(** A type-only import of a package is third-party: it goes in front of a
    value import of a relative path, and the file is reported. *)
Example Program_file_type_only :
  getGroupType (heap_for file_type_only) 1 = Some 0 ∧
  isTypeImport (heap_for file_type_only) 1 = true ∧
  sortedImports (heap_for file_type_only) (getText_for file_type_only)
    [0; 1] = [1; 0] ∧
  ∃ f, Program (heap_for file_type_only) (getText_for file_type_only)
         [0; 1] =
       [ {| report_node := Some 0;
            report_message := "Imports are not sorted correctly.";
            report_fix := Some f |} ] ∧
       fix_text f =
       join_lines [ "import type { T } from 'react'"; "";
                    "import a from '../a'" ].
Proof. repeat split. by eexists. Qed.
